(** * The autonomy task executor of the rover (rover_navigation/task_executor.py)

    A shallow embedding of [AutonomyTaskExecutor]: the node's attributes are a
    record, the mission thread is a state-and-exception monad over that record,
    and the outside world (Nav2 action servers, trigger services, subscriber
    callbacks running on other threads) is a finite script of ticks that the
    mission thread consumes at every blocking call.  What the node does to the
    world is recorded, in order, in a trace of events. *)

From Stdlib Require Import PrimFloat DecimalString.
From stdpp Require Import gmap strings list.

Set Warnings "-inexact-float".

Local Open Scope string_scope.

(* ===================================================================== *)
(** ** Data *)
(* ===================================================================== *)

(** Modelled from the spec: [latLonYaw2Geopose] lives in
    rover_navigation/utils/gps_utils.py; a GeoPose is "(latitude, longitude,
    heading)" and the two-argument call leaves the heading at its default. *)
Record GeoPose := mkGeoPose {
  latitude : float;
  longitude : float;
  yaw : float
}.

Definition latLonYaw2Geopose (lat lon : float) : GeoPose :=
  mkGeoPose lat lon 0%float.

(** [wp != dest_wp] on two messages compares the fields with float [==]. *)
Definition geopose_eqb (a b : GeoPose) : bool :=
  PrimFloat.eqb (latitude a) (latitude b)
  && PrimFloat.eqb (longitude a) (longitude b)
  && PrimFloat.eqb (yaw a) (yaw b).

(** One entry of the parsed waypoint file: [wp["leg"]], [wp["latitude"]],
    [wp["longitude"]]. *)
Record waypoint := mkWaypoint {
  wp_leg : string;
  wp_latitude : float;
  wp_longitude : float
}.

(** [action_msgs/GoalStatus]. *)
Inductive GoalStatus :=
| STATUS_UNKNOWN | STATUS_ACCEPTED | STATUS_EXECUTING | STATUS_CANCELING
| STATUS_SUCCEEDED | STATUS_CANCELED | STATUS_ABORTED.

(** [nav2_simple_commander.TaskResult]. *)
Inductive TaskResult := UNKNOWN | SUCCEEDED | CANCELED | FAILED.

(** The three trigger services. *)
Inductive mode := Teleop | Auto | Arrival.

(** The severity prefixes of [task_info], [task_warn], [task_error] and
    [task_fatal]. *)
Inductive level := Info | Warn | Error | Fatal.

(** The terminal transitions an rclpy server goal handle offers:
    [succeed()], [abort()] and [canceled()]. *)
Inductive goal_transition := Succeed | Abort | Canceled.

(** A marker of an [ArucoDetection] message.  [marker_geo] is what the two
    external conversions of [pose_to_geopose] (the tf2 lookup into the utm
    frame, then [utm.to_latlon]) yield for the marker's pose; [None] when the
    transform lookup raises. *)
Record marker := mkMarker {
  marker_id : Z;
  marker_geo : option (float * float)
}.

(** An object of an [ObjectsStamped] message, with the same convention. *)
Record object := mkObject {
  label : string;
  object_geo : option (float * float)
}.

(** What the other threads of the multi-threaded executor run while the mission
    thread is blocked: the three subscriber callbacks and the cancel callback of
    the action server. *)
Inductive callback :=
| GpsFix (lat lon : float)
| ArucoMsg (markers : list marker)
| ObjectsMsg (objects : list object)
| CancelRequest.

(** One blocking call of the mission thread as the world answers it: the
    callbacks that ran meanwhile, and the replies of the services involved
    (each call reads the reply it asks for). *)
Record tick := mkTick {
  callbacks : list callback;
  accepted : bool;                      (* goal_handle.accepted *)
  future_result : option GoalStatus;    (* result_future.result(), its status *)
  lifecycle : option string             (* get_state: current_state.label *)
}.

(** What the node does to the world. *)
Inductive event :=
| EvFeedback (lvl : level) (current_leg body : string)
| EvTrigger (m : mode)
| EvMapvizInter (lat lon : float)
| EvMapvizGoal (lat lon : float)
| EvFollowGps (id : nat) (path : list GeoPose)
| EvSpin (id : nat) (target_yaw : float) (time_allowance : Z)
| EvCancelGoal (id : nat)
| EvGetState (node_name : string)
| EvSleep (seconds : float)
| EvGoal (t : goal_transition).

(** The text of [task_feedback.status]. *)
Definition status_text (lvl : level) (current_leg body : string) : string :=
  match lvl with
  | Info => "[" ++ current_leg ++ "] " ++ body
  | Warn => "[WARN] [" ++ current_leg ++ "] " ++ body
  | Error => "[ERROR] [" ++ current_leg ++ "] " ++ body
  | Fatal => "[FATAL] [" ++ current_leg ++ "] " ++ body
  end.

(** The node parameters and the planners of rover_navigation/utils, which the
    executor selects by name and calls with [self.filtered_gps]. *)
Record config := mkConfig {
  path_planner : string;
  order_planner : string;
  basicPathPlanner : option GeoPose → GeoPose → list GeoPose;
  terrainPathPlanner : option GeoPose → GeoPose → list GeoPose;
  bruteOrderPlanner : list string → list waypoint → option GeoPose → list string;
  greedyOrderPlanner : list string → list waypoint → option GeoPose → list string;
  terrainOrderPlanner : list string → list waypoint → option GeoPose → list string;
  noOrderPlanner : list string → list waypoint → option GeoPose → list string
}.

(** The attributes of the node the mission reads or writes, the trace, and the
    rest of the script. [goal_handle] is the number of the goal together with
    [accepted]; [result_future] is the number of the goal it belongs to. *)
Record node := mkNode {
  wps : list waypoint;
  legs : list string;
  leg : string;
  found_poses : gmap string (option GeoPose);
  cancel_flag : bool;
  filtered_gps : option GeoPose;
  goal_handle : option (nat * bool);
  result_future : option nat;
  status : option GoalStatus;
  is_cancel_requested : bool;           (* of task_goal_handle *)
  goals_sent : nat;
  trace : list event;
  script : list tick
}.

Definition set_wps v (s : node) : node :=
  mkNode v (legs s) (leg s) (found_poses s) (cancel_flag s) (filtered_gps s)
    (goal_handle s) (result_future s) (status s) (is_cancel_requested s)
    (goals_sent s) (trace s) (script s).
Definition set_legs v (s : node) : node :=
  mkNode (wps s) v (leg s) (found_poses s) (cancel_flag s) (filtered_gps s)
    (goal_handle s) (result_future s) (status s) (is_cancel_requested s)
    (goals_sent s) (trace s) (script s).
Definition set_leg v (s : node) : node :=
  mkNode (wps s) (legs s) v (found_poses s) (cancel_flag s) (filtered_gps s)
    (goal_handle s) (result_future s) (status s) (is_cancel_requested s)
    (goals_sent s) (trace s) (script s).
Definition set_found_poses v (s : node) : node :=
  mkNode (wps s) (legs s) (leg s) v (cancel_flag s) (filtered_gps s)
    (goal_handle s) (result_future s) (status s) (is_cancel_requested s)
    (goals_sent s) (trace s) (script s).
Definition set_cancel_flag v (s : node) : node :=
  mkNode (wps s) (legs s) (leg s) (found_poses s) v (filtered_gps s)
    (goal_handle s) (result_future s) (status s) (is_cancel_requested s)
    (goals_sent s) (trace s) (script s).
Definition set_filtered_gps v (s : node) : node :=
  mkNode (wps s) (legs s) (leg s) (found_poses s) (cancel_flag s) v
    (goal_handle s) (result_future s) (status s) (is_cancel_requested s)
    (goals_sent s) (trace s) (script s).
Definition set_goal_handle v (s : node) : node :=
  mkNode (wps s) (legs s) (leg s) (found_poses s) (cancel_flag s) (filtered_gps s)
    v (result_future s) (status s) (is_cancel_requested s)
    (goals_sent s) (trace s) (script s).
Definition set_result_future v (s : node) : node :=
  mkNode (wps s) (legs s) (leg s) (found_poses s) (cancel_flag s) (filtered_gps s)
    (goal_handle s) v (status s) (is_cancel_requested s)
    (goals_sent s) (trace s) (script s).
Definition set_status v (s : node) : node :=
  mkNode (wps s) (legs s) (leg s) (found_poses s) (cancel_flag s) (filtered_gps s)
    (goal_handle s) (result_future s) v (is_cancel_requested s)
    (goals_sent s) (trace s) (script s).
Definition set_is_cancel_requested v (s : node) : node :=
  mkNode (wps s) (legs s) (leg s) (found_poses s) (cancel_flag s) (filtered_gps s)
    (goal_handle s) (result_future s) (status s) v
    (goals_sent s) (trace s) (script s).
Definition set_goals_sent v (s : node) : node :=
  mkNode (wps s) (legs s) (leg s) (found_poses s) (cancel_flag s) (filtered_gps s)
    (goal_handle s) (result_future s) (status s) (is_cancel_requested s)
    v (trace s) (script s).
Definition set_trace v (s : node) : node :=
  mkNode (wps s) (legs s) (leg s) (found_poses s) (cancel_flag s) (filtered_gps s)
    (goal_handle s) (result_future s) (status s) (is_cancel_requested s)
    (goals_sent s) v (script s).
Definition set_script v (s : node) : node :=
  mkNode (wps s) (legs s) (leg s) (found_poses s) (cancel_flag s) (filtered_gps s)
    (goal_handle s) (result_future s) (status s) (is_cancel_requested s)
    (goals_sent s) (trace s) v.

(* ===================================================================== *)
(** ** Task constants and tunable values ([__init__]) *)
(* ===================================================================== *)

Definition gps_legs : list string := ["gps1"; "gps2"].
Definition aruco_legs : list string := ["aruco1"; "aruco2"; "aruco3"].
Definition obj_legs : list string := ["mallet"; "bottle"].
Definition tags : gmap string Z :=
  list_to_map [("aruco1", 1%Z); ("aruco2", 2%Z); ("aruco3", 3%Z)].

Definition wait_time : float := 10%float.
Definition update_threshold : float := 0.000005%float.

Definition hex_coord : list (float * float) :=
  [ (1.0, 0.0); (0.5, 0.866); (-0.5, 0.866);
    (-1.0, 0.0); (-0.5, -0.866); (0.5, -0.866) ]%float.
Definition hex_scalar : float := 0.0001%float.

(** Python's [x in s] on two strings. *)
Fixpoint str_in (x s : string) : bool :=
  String.prefix x s
  || match s with
     | EmptyString => false
     | String _ rest => str_in x rest
     end.

(* ===================================================================== *)
(** ** The subscriber callbacks *)
(* ===================================================================== *)

(** [pose_to_geopose]: the transform is tried first, then the GPS fix is
    required, then the converted coordinates are wrapped. [None] is the
    [False] of the source. *)
Definition pose_to_geopose (geo : option (float * float)) (s : node)
  : option GeoPose :=
  match geo with
  | None => None
  | Some (lat, lon) =>
      match filtered_gps s with
      | None => None
      | Some _ => Some (latLonYaw2Geopose lat lon)
      end
  end.

(** [gps_callback] (the UTM zone and hemisphere it caches only feed
    [utm.to_latlon], whose result the messages carry). *)
Definition gps_callback (lat lon : float) (s : node) : node :=
  set_filtered_gps (Some (latLonYaw2Geopose lat lon)) s.

Definition aruco_callback (markers : list marker) (s : node) : node :=
  if bool_decide (leg s ∈ aruco_legs) then
    foldl (λ s mk,
      match tags !! leg s with
      | None => s
      | Some tag =>
          if bool_decide (marker_id mk = tag) then
            match pose_to_geopose (marker_geo mk) s with
            | Some pose => set_found_poses (<[leg s := Some pose]> (found_poses s)) s
            | None => s
            end
          else s
      end) s markers
  else s.

Definition obj_callback (objects : list object) (s : node) : node :=
  if bool_decide (leg s ∈ obj_legs) then
    foldl (λ s obj,
      if str_in (label obj) (leg s) then
        match pose_to_geopose (object_geo obj) s with
        | Some pose => set_found_poses (<[leg s := Some pose]> (found_poses s)) s
        | None => s
        end
      else s) s objects
  else s.

(** [cancel_callback] accepts the request, which is what makes
    [task_goal_handle.is_cancel_requested] true. *)
Definition cancel_callback (s : node) : node :=
  set_is_cancel_requested true (set_cancel_flag true s).

Definition run_callback (cb : callback) (s : node) : node :=
  match cb with
  | GpsFix lat lon => gps_callback lat lon s
  | ArucoMsg markers => aruco_callback markers s
  | ObjectsMsg objects => obj_callback objects s
  | CancelRequest => cancel_callback s
  end.

Definition deliver (cbs : list callback) (s : node) : node :=
  foldl (λ s cb, run_callback cb s) s cbs.

(* ===================================================================== *)
(** ** The mission thread: state, exceptions and blocking *)
(* ===================================================================== *)

(** How a piece of the mission thread ends: it returns, it raises a Python
    exception (kept as its [str(e)]), it is still blocked when the script has no
    tick left, or a loop of the model ran out of fuel. *)
Inductive outcome (A : Type) :=
| Ret (a : A)
| Raise (e : string)
| Blocked
| OutOfFuel.
Arguments Ret {A} a.
Arguments Raise {A} e.
Arguments Blocked {A}.
Arguments OutOfFuel {A}.

Definition M (A : Type) : Type := node → outcome A * node.

#[global] Instance M_ret : MRet M := λ A a s, (Ret a, s).
#[global] Instance M_bind : MBind M := λ A B f m s,
  match m s with
  | (Ret a, s') => f a s'
  | (Raise e, s') => (Raise e, s')
  | (Blocked, s') => (Blocked, s')
  | (OutOfFuel, s') => (OutOfFuel, s')
  end.

Definition raise {A} (e : string) : M A := λ s, (Raise e, s).
Definition out_of_fuel {A} : M A := λ s, (OutOfFuel, s).
Definition gets {A} (f : node → A) : M A := λ s, (Ret (f s), s).
Definition modify (f : node → node) : M unit := λ s, (Ret tt, f s).

(** [try: body except Exception as e: handler(str(e))]. *)
Definition try_except {A} (body : M A) (handler : string → M A) : M A := λ s,
  match body s with
  | (Raise e, s') => handler e s'
  | r => r
  end.

Definition emit (e : event) : M unit :=
  modify (λ s, set_trace (trace s ++ [e]) s).

(** A blocking call: the other threads run their callbacks, then the reply is
    there. *)
Definition block : M tick := λ s,
  match script s with
  | [] => (Blocked, s)
  | t :: rest => (Ret t, deliver (callbacks t) (set_script rest s))
  end.

(** [time.sleep(seconds)]. *)
Definition sleep (seconds : float) : M unit :=
  emit (EvSleep seconds);; _ ← block; mret tt.

(** [asyncio.run(self.async_service_call(client, request))] on one of the three
    trigger clients. *)
Definition async_service_call (m : mode) : M unit :=
  emit (EvTrigger m);; _ ← block; mret tt.

(** ** Task exec feedback functions *)

Definition task_feedback (lvl : level) (body : string) : M unit :=
  l ← gets leg; emit (EvFeedback lvl l body).
Definition task_info := task_feedback Info.
Definition task_warn := task_feedback Warn.
Definition task_error := task_feedback Error.
Definition task_fatal := task_feedback Fatal.

(** ** Nav2 basic navigator based code *)

(** The part of [followGpsWaypoints] and [spin] after the goal message is
    built: waiting for the action server and for the goal response is one
    blocking call. *)
Definition send_goal (ev : nat → event) : M bool :=
  id ← gets goals_sent;
  modify (set_goals_sent (S id));;
  emit (ev id);;
  t ← block;
  modify (set_goal_handle (Some (id, accepted t)));;
  if accepted t then
    modify (set_result_future (Some id));; mret true
  else mret false.

Definition followGpsWaypoints (gps_poses : list GeoPose) : M bool :=
  send_goal (λ id, EvFollowGps id gps_poses).

Definition spin (spin_dist : float) (time_allowance : Z) : M bool :=
  send_goal (λ id, EvSpin id spin_dist time_allowance).

Definition cancelTask : M unit :=
  fut ← gets result_future;
  match fut with
  | Some _ =>
      h ← gets goal_handle;
      match h with
      | Some (id, _) => emit (EvCancelGoal id);; _ ← block; mret tt
      | None => raise "'NoneType' object has no attribute 'cancel_goal_async'"
      end
  | None => mret tt
  end.

(** [isTaskComplete]: without a result future the task counts as complete; with
    one, the bounded wait is a blocking call and a result of any status ends
    the task. *)
Definition isTaskComplete : M bool :=
  fut ← gets result_future;
  match fut with
  | None => mret true
  | Some _ =>
      t ← block;
      match future_result t with
      | Some st => modify (set_status (Some st));; mret true
      | None => mret false
      end
  end.

Definition getResult : M TaskResult :=
  st ← gets status;
  mret match st with
       | Some STATUS_SUCCEEDED => SUCCEEDED
       | Some STATUS_ABORTED => FAILED
       | Some STATUS_CANCELED => CANCELED
       | _ => UNKNOWN
       end.

(** [_waitForNodeToActivate]: ask for the state, sleep two seconds, until the
    label is "active". *)
Fixpoint waitForNodeToActivate_loop (n : nat) (node_name state : string) : M unit :=
  if String.eqb state "active" then mret tt
  else match n with
       | 0 => out_of_fuel
       | S n =>
           emit (EvGetState node_name);;
           t ← block;
           let state := default state (lifecycle t) in
           sleep 2;;
           waitForNodeToActivate_loop n node_name state
       end.

(** [waitUntilNav2Active(localizer="robot_localization")]: only the navigator
    is waited for. *)
Definition waitUntilNav2Active (fuel : nat) (navigator localizer : string) : M unit :=
  (if String.eqb localizer "robot_localization" then mret tt
   else waitForNodeToActivate_loop fuel localizer "unknown");;
  waitForNodeToActivate_loop fuel navigator "unknown".

(* ===================================================================== *)
(** ** Task executor functions *)
(* ===================================================================== *)

(** [str(i)] on a loop index. *)
Definition str_nat (i : nat) : string := NilZero.string_of_uint (Nat.to_uint i).

(** [str(self.legs)]: the list display of Python, exact for leg names without
    quotes, backslashes or control characters. *)
Definition str_list (l : list string) : string :=
  "[" ++ String.concat ", " (map (λ x, "'" ++ x ++ "'") l) ++ "]".

(** The loop [for wp in self.wps: if wp["leg"] == self.leg: ...] of [exec_leg]
    and [hex_search]: the last matching entry stays bound. *)
Definition find_wp (l : string) (table : list waypoint) : option GeoPose :=
  foldl (λ acc wp,
    if String.eqb (wp_leg wp) l
    then Some (latLonYaw2Geopose (wp_latitude wp) (wp_longitude wp))
    else acc) None table.

(** The test of [gps_nav] on a better pose: either coordinate moved by more
    than [update_threshold]. *)
Definition materially_changed (pose dest_wp : GeoPose) : bool :=
  PrimFloat.ltb update_threshold
    (PrimFloat.abs (latitude pose - latitude dest_wp))
  || PrimFloat.ltb update_threshold
    (PrimFloat.abs (longitude pose - longitude dest_wp)).

Definition canceled_msg : string := "Task execution canceled by action client".

(** [found_check]: [None] is the [False] of the source. *)
Definition found_check : M (option GeoPose) :=
  l ← gets leg;
  if bool_decide (l ∈ aruco_legs) || bool_decide (l ∈ obj_legs) then
    fp ← gets found_poses;
    match fp !! l with
    | Some (Some pose) => mret (Some pose)
    | Some None => mret None
    | None => raise l                      (* KeyError *)
    end
  else mret None.

(** The check every polling loop makes after its sleep. *)
Definition check_cancel : M unit :=
  c ← gets is_cancel_requested;
  if (c : bool) then cancelTask;; raise canceled_msg else mret tt.

Section Executor.

Variable cfg : config.

(** The report after a polling loop ran to completion. *)
Definition report_result (what src_string : string) : M unit :=
  result ← getResult;
  match result with
  | SUCCEEDED => task_info (what ++ " completed" ++ src_string)
  | CANCELED => task_warn (what ++ " canceled" ++ src_string)
  | FAILED => task_error (what ++ " failed" ++ src_string)
  | UNKNOWN => mret tt
  end.

(** The polling loop of [gps_nav]; [Some pose] is a [return pose] from inside
    the loop, [None] is the loop ending because the task is complete. *)
Fixpoint gps_nav_loop (n : nat) (dest_wp : GeoPose) (src_string : string)
    (updating : bool) : M (option GeoPose) :=
  complete ← isTaskComplete;
  if (complete : bool) then mret None
  else match n with
  | 0 => out_of_fuel
  | S n =>
      sleep 0.1;;
      check_cancel;;
      if updating then
        found ← found_check;
        match found with
        | None => raise "'bool' object has no attribute 'position'"
        | Some pose =>
            if materially_changed pose dest_wp then
              task_info ("Improved GPS location found" ++ src_string);;
              cancelTask;;
              sleep 0.5;;
              mret (Some pose)
            else gps_nav_loop n dest_wp src_string updating
        end
      else
        found ← found_check;
        match found with
        | Some pose => cancelTask;; mret (Some pose)
        | None => gps_nav_loop n dest_wp src_string updating
        end
  end.

Definition publish_path (path : list GeoPose) (dest_wp : GeoPose) : M unit :=
  foldr (λ wp rest,
    (if negb (geopose_eqb wp dest_wp)
     then emit (EvMapvizInter (latitude wp) (longitude wp))
     else emit (EvMapvizGoal (latitude wp) (longitude wp)));; rest)
    (mret tt) path.

Definition gps_nav (fuel : nat) (dest_wp : GeoPose) (src_string : string)
    (updating : bool) : M (option GeoPose) :=
  task_info ("Starting GPS navigation" ++ src_string);;
  gps ← gets filtered_gps;
  path ← (if String.eqb (path_planner cfg) "basicPathPlanner"
          then mret (basicPathPlanner cfg gps dest_wp)
          else if String.eqb (path_planner cfg) "terrainPathPlanner"
          then mret (terrainPathPlanner cfg gps dest_wp)
          else raise ("Invalid path planner provided: " ++ path_planner cfg));
  publish_path path dest_wp;;
  followGpsWaypoints path;;
  found ← gps_nav_loop fuel dest_wp src_string updating;
  match found with
  | Some pose => mret (Some pose)
  | None => report_result "GPS navigation" src_string;; mret None
  end.

Fixpoint spin_search_loop (n : nat) : M (option GeoPose) :=
  complete ← isTaskComplete;
  if (complete : bool) then mret None
  else match n with
  | 0 => out_of_fuel
  | S n =>
      sleep 0.1;;
      check_cancel;;
      found ← found_check;
      match found with
      | Some pose => cancelTask;; mret (Some pose)
      | None => spin_search_loop n
      end
  end.

Definition spin_search (fuel : nat) (src_string : string) : M (option GeoPose) :=
  task_info ("Starting spin search" ++ src_string);;
  spin 3.14 10;;
  found ← spin_search_loop fuel;
  match found with
  | Some pose => mret (Some pose)
  | None => report_result "Spin search" src_string;; mret None
  end.

(** The hex vertex of [coord] around [base_wp]. *)
Definition hex_wp (base_wp : GeoPose) (coord : float * float) : GeoPose :=
  latLonYaw2Geopose (latitude base_wp + fst coord * hex_scalar)
                    (longitude base_wp + snd coord * hex_scalar).

(** The body of [for i, coord in enumerate(self.hex_coord)], from index [i]
    on; [base_wp] is unbound when no waypoint matched the leg. *)
Fixpoint hex_search_loop (fuel : nat) (base_wp : option GeoPose) (i : nat)
    (coords : list (float * float)) : M (option GeoPose) :=
  match coords with
  | [] => task_info "Hex search completed";; mret None
  | coord :: coords =>
      match base_wp with
      | None => raise "local variable 'base_wp' referenced before assignment"
      | Some base =>
          found ← gps_nav fuel (hex_wp base coord) (" (hex " ++ str_nat i ++ ")") false;
          match found with
          | Some pose => mret (Some pose)
          | None =>
              found ← spin_search fuel (" (hex " ++ str_nat i ++ ")");
              match found with
              | Some pose => mret (Some pose)
              | None => hex_search_loop fuel base_wp (S i) coords
              end
          end
      end
  end.

Definition hex_search (fuel : nat) : M (option GeoPose) :=
  task_info "Starting hex search";;
  l ← gets leg;
  table ← gets wps;
  hex_search_loop fuel (find_wp l table) 0 hex_coord.

(** [while found_loc: found_loc = self.gps_nav(found_loc, ..., updating=True)]. *)
Fixpoint converge_loop (fuel n : nat) (found_loc : GeoPose) (print_string : string)
    : M unit :=
  match n with
  | 0 => out_of_fuel
  | S n =>
      found ← gps_nav fuel found_loc (" (" ++ print_string ++ ")") true;
      match found with
      | Some pose => converge_loop fuel n pose print_string
      | None => mret tt
      end
  end.

Definition is_gps_leg (l : string) : bool := bool_decide (l ∈ gps_legs).
Definition is_aruco_leg (l : string) : bool := bool_decide (l ∈ aruco_legs).
Definition is_obj_leg (l : string) : bool := bool_decide (l ∈ obj_legs).

Definition print_string_of (l : string) : string :=
  if is_gps_leg l then "GPS waypoint"
  else if is_aruco_leg l then "aruco tag"
  else "object".

(** The end of a leg that reached its goal. *)
Definition signal_arrival : M unit :=
  task_info "Flashing LED to indicate arrival";;
  async_service_call Arrival;;
  sleep wait_time;;
  async_service_call Auto.

(** The search escalation of a target leg: what the navigation found, else a
    spin search, else a hex search. *)
Definition search_target (fuel : nat) (found_loc : option GeoPose)
    : M (option GeoPose) :=
  found_loc ← match found_loc with
              | None => spin_search fuel ""
              | Some pose => mret (Some pose)
              end;
  match found_loc with
  | None => hex_search fuel
  | Some pose => mret (Some pose)
  end.

Definition exec_leg (fuel : nat) (l : string) : M unit :=
  modify (set_leg l);;
  if is_gps_leg l || is_aruco_leg l || is_obj_leg l then
    let print_string := print_string_of l in
    task_info ("Starting " ++ print_string ++ " leg");;
    table ← gets wps;
    match find_wp l table with
    | None => task_error "No GPS waypoint found for leg"
    | Some leg_wp =>
        found_loc ← gps_nav fuel leg_wp "" false;
        if is_aruco_leg l || is_obj_leg l then
          found_loc ← search_target fuel found_loc;
          match found_loc with
          | None => task_error ("Could not find the " ++ print_string)
          | Some pose =>
              task_info ("Found the " ++ print_string ++ "!");;
              converge_loop fuel fuel pose print_string;;
              task_info ("SUCCESS! Found and navigated to " ++ print_string);;
              signal_arrival
          end
        else
          task_info ("SUCCESS! Navigated to " ++ print_string);;
          signal_arrival
    end
  else task_error ("Invalid leg type provided:" ++ l).

(** [for leg in self.legs: self.exec_leg(leg)]. *)
Fixpoint exec_legs (fuel : nat) (ls : list string) : M unit :=
  match ls with
  | [] => mret tt
  | l :: ls => exec_leg fuel l;; exec_legs fuel ls
  end.

(** The wait for the first GPS fix. *)
Fixpoint wait_gps_fix (n : nat) : M unit :=
  gps ← gets filtered_gps;
  match gps with
  | Some _ => mret tt
  | None =>
      match n with
      | 0 => out_of_fuel
      | S n =>
          sleep 1;;
          task_warn "Waiting on a GPS fix...";;
          check_cancel;;
          wait_gps_fix n
      end
  end.

Definition plan_order : M (list string) :=
  ls ← gets legs;
  table ← gets wps;
  gps ← gets filtered_gps;
  if String.eqb (order_planner cfg) "bruteOrderPlanner"
  then mret (bruteOrderPlanner cfg ls table gps)
  else if String.eqb (order_planner cfg) "greedyOrderPlanner"
  then mret (greedyOrderPlanner cfg ls table gps)
  else if String.eqb (order_planner cfg) "terrainOrderPlanner"
  then mret (terrainOrderPlanner cfg ls table gps)
  else if String.eqb (order_planner cfg) "noOrderPlanner"
  then mret (noOrderPlanner cfg ls table gps)
  else raise ("Invalid order planner provided: " ++ order_planner cfg).

Definition exec_autonomy_task (fuel : nat) : M unit :=
  task_info "Autonomy task execution started";;
  wait_gps_fix fuel;;
  task_info ("Using order planner: " ++ order_planner cfg
             ++ " and path planner: " ++ path_planner cfg);;
  task_info "Please review the leg order plan (exit matplotlib to continue)";;
  ls ← plan_order;
  modify (set_legs ls);;
  task_info ("Determined best leg order: " ++ str_list ls);;
  waitUntilNav2Active fuel "bt_navigator" "robot_localization";;
  exec_legs fuel ls;;
  modify (set_leg "end");;
  task_info "Autonomy task execution completed".

Definition no_found_poses : gmap string (option GeoPose) :=
  list_to_map [("aruco1", None); ("aruco2", None); ("aruco3", None);
               ("mallet", None); ("bottle", None)].

(** [action_server_callback] on a goal asking for [request_legs], with
    [table] what [waypointParser] read; the value returned is [result.msg].
    The goal handle is a fresh one, so no cancel is requested yet. *)
Definition action_server_callback (fuel : nat) (request_legs : list string)
    (table : list waypoint) : M string :=
  modify (set_wps table);;
  modify (set_is_cancel_requested false);;
  modify (set_cancel_flag false);;
  modify (set_legs []);;
  modify (set_leg "start");;
  modify (set_found_poses no_found_poses);;
  modify (set_legs request_legs);;
  match request_legs with
  | [] =>
      task_fatal "No task legs provided";;
      emit (EvGoal Abort);;
      mret "Well that was less-than-interstellar of you"
  | _ :: _ =>
      async_service_call Auto;;
      msg ← try_except
        (exec_autonomy_task fuel;;
         emit (EvGoal Succeed);;
         mret "One small step for a rover, one giant leap for roverkind")
        (λ e,
         task_fatal e;;
         emit (EvGoal Abort);;
         mret "It was the aliens, I'm telling you");
      async_service_call Teleop;;
      mret msg
  end.

(** A run of the action server callback on a node, against a script: the fuel
    is one more than the number of ticks, which no loop can use up. *)
Definition run_mission (request_legs : list string) (table : list waypoint)
    (world : list tick) (s : node) : outcome string * node :=
  action_server_callback (S (length world)) request_legs table (set_script world s).

End Executor.

(** From here on [++] is the append of lists, and [+:+] that of strings. *)
Local Close Scope string_scope.

(* ===================================================================== *)
(** ** Reading a trace *)
(* ===================================================================== *)

Definition mode_switches (evs : list event) : list mode :=
  omap (λ e, match e with EvTrigger m => Some m | _ => None end) evs.

Definition goal_transitions (evs : list event) : list goal_transition :=
  omap (λ e, match e with EvGoal t => Some t | _ => None end) evs.

Definition feedback (evs : list event) : list (level * string * string) :=
  omap (λ e, match e with
             | EvFeedback lvl l body => Some (lvl, l, body)
             | _ => None
             end) evs.

(** The goals sent to and the cancellations asked of the motion servers. *)
Inductive motion := Follow (id : nat) | Spin (id : nat) | CancelGoal (id : nat).

Definition motions (evs : list event) : list motion :=
  omap (λ e, match e with
             | EvFollowGps id _ => Some (Follow id)
             | EvSpin id _ _ => Some (Spin id)
             | EvCancelGoal id => Some (CancelGoal id)
             | _ => None
             end) evs.

Definition sleeps (evs : list event) : list float :=
  omap (λ e, match e with EvSleep d => Some d | _ => None end) evs.

Definition is_teleop (e : event) : bool :=
  match e with EvTrigger Teleop => true | _ => false end.

Definition is_mode_switch (e : event) : bool :=
  match e with EvTrigger _ => true | _ => false end.

Definition is_goal_transition (e : event) : bool :=
  match e with EvGoal _ => true | _ => false end.

(** The marks a spin search or a hex search leaves: the spin goal, and the
    line each of the two functions starts with. *)
Definition is_search_event (e : event) : bool :=
  match e with
  | EvSpin _ _ _ => true
  | EvFeedback _ _ body =>
      String.prefix "Starting spin search" body
      || String.prefix "Starting hex search" body
  | _ => false
  end.

(** A motion goal being sent. *)
Definition is_motion_goal (e : event) : bool :=
  match e with EvFollowGps _ _ | EvSpin _ _ _ => true | _ => false end.

(** What a run added to the trace. *)
Definition new_events (s s' : node) : list event :=
  drop (length (trace s)) (trace s').

(* ===================================================================== *)
(** ** The callbacks touch only what they are written to touch *)
(* ===================================================================== *)

Section CallbackFrame.

Context {A : Type} (f : node → A).
Hypothesis f_found_poses : ∀ v s, f (set_found_poses v s) = f s.
Hypothesis f_filtered_gps : ∀ v s, f (set_filtered_gps v s) = f s.
Hypothesis f_cancel_flag : ∀ v s, f (set_cancel_flag v s) = f s.
Hypothesis f_is_cancel_requested : ∀ v s, f (set_is_cancel_requested v s) = f s.

Lemma aruco_callback_frame markers s : f (aruco_callback markers s) = f s.
Proof using f_found_poses.
  unfold aruco_callback. case_bool_decide; [|done].
  clear H. revert s. induction markers as [|mk markers IH]; intros s; [done|].
  cbn [foldl]. rewrite IH.
  destruct (tags !! leg s); [|done].
  case_bool_decide; [|done].
  destruct (pose_to_geopose _ s); [|done]. apply f_found_poses.
Qed.

Lemma obj_callback_frame objects s : f (obj_callback objects s) = f s.
Proof using f_found_poses.
  unfold obj_callback. case_bool_decide; [|done].
  clear H. revert s. induction objects as [|obj objects IH]; intros s; [done|].
  cbn [foldl]. rewrite IH.
  destruct (str_in _ _); [|done].
  destruct (pose_to_geopose _ s); [|done]. apply f_found_poses.
Qed.

Lemma run_callback_frame cb s : f (run_callback cb s) = f s.
Proof using All.
  destruct cb; cbn [run_callback].
  - apply f_filtered_gps.
  - apply aruco_callback_frame.
  - apply obj_callback_frame.
  - unfold cancel_callback. by rewrite f_is_cancel_requested, f_cancel_flag.
Qed.

Lemma deliver_frame cbs s : f (deliver cbs s) = f s.
Proof using All.
  unfold deliver. revert s. induction cbs as [|cb cbs IH]; intros s; [done|].
  cbn [foldl]. rewrite IH. apply run_callback_frame.
Qed.

End CallbackFrame.

Lemma deliver_trace cbs s : trace (deliver cbs s) = trace s.
Proof. by apply deliver_frame. Qed.
Lemma deliver_script cbs s : script (deliver cbs s) = script s.
Proof. by apply deliver_frame. Qed.
Lemma deliver_leg cbs s : leg (deliver cbs s) = leg s.
Proof. by apply deliver_frame. Qed.
Lemma deliver_result_future cbs s : result_future (deliver cbs s) = result_future s.
Proof. by apply deliver_frame. Qed.
Lemma deliver_goal_handle cbs s : goal_handle (deliver cbs s) = goal_handle s.
Proof. by apply deliver_frame. Qed.
Lemma deliver_goals_sent cbs s : goals_sent (deliver cbs s) = goals_sent s.
Proof. by apply deliver_frame. Qed.
Lemma deliver_wps cbs s : wps (deliver cbs s) = wps s.
Proof. by apply deliver_frame. Qed.

(** A cancel request is never taken back by a callback. *)
Lemma deliver_cancel_requested cbs s :
  is_cancel_requested s = true → is_cancel_requested (deliver cbs s) = true.
Proof.
  unfold deliver. revert s. induction cbs as [|cb cbs IH]; intros s Hs; [done|].
  cbn [foldl]. apply IH. destruct cb; cbn [run_callback]; [done| | |done].
  - by rewrite (aruco_callback_frame is_cancel_requested).
  - by rewrite (obj_callback_frame is_cancel_requested).
Qed.

(* ===================================================================== *)
(** ** Monad laws used by the proofs *)
(* ===================================================================== *)

Lemma bind_unfold {A B} (m : M A) (f : A → M B) s :
  (m ≫= f) s =
  match m s with
  | (Ret a, s') => f a s'
  | (Raise e, s') => (Raise e, s')
  | (Blocked, s') => (Blocked, s')
  | (OutOfFuel, s') => (OutOfFuel, s')
  end.
Proof. reflexivity. Qed.

Lemma bind_ret_inv {A B} (m : M A) (f : A → M B) s b s' :
  (m ≫= f) s = (Ret b, s') →
  ∃ a s1, m s = (Ret a, s1) ∧ f a s1 = (Ret b, s').
Proof.
  rewrite bind_unfold. destruct (m s) as [[a| | |] s1]; try done. eauto.
Qed.

(** One step of evaluation through a bind. *)
Ltac mstep :=
  rewrite bind_unfold;
  cbn [modify gets emit mret M_ret raise out_of_fuel].

Lemma bind_ret_step {A B} (m : M A) (f : A → M B) s a s1 :
  m s = (Ret a, s1) → (m ≫= f) s = f a s1.
Proof. intros H. by rewrite bind_unfold, H. Qed.

Lemma bind_raise_step {A B} (m : M A) (f : A → M B) s e s1 :
  m s = (Raise e, s1) → (m ≫= f) s = (Raise e, s1).
Proof. intros H. by rewrite bind_unfold, H. Qed.

(* ===================================================================== *)
(** ** Relations every step of the mission thread respects *)
(* ===================================================================== *)

(** A relation between the node before and after, kept by doing nothing, by
    doing two things in a row, by adding an allowed event to the trace,
    by a blocking call, and by the assignments of the navigator code. *)
Class Frame (R : node → node → Prop) := {
  allowed : event → bool;
  frame_refl s : R s s;
  frame_trans s1 s2 s3 : R s1 s2 → R s2 s3 → R s1 s3;
  frame_emit e s : allowed e = true → R s (set_trace (trace s ++ [e]) s);
  frame_block t rest s :
    script s = t :: rest → R s (deliver (callbacks t) (set_script rest s));
  frame_goals_sent v s : R s (set_goals_sent v s);
  frame_goal_handle v s : R s (set_goal_handle v s);
  frame_result_future v s : R s (set_result_future v s);
  frame_status v s : R s (set_status v s);
  frame_legs v s : R s (set_legs v s)
}.

(** [respects R m]: whatever the state and however it ends, [m] takes the node
    to one related to it by [R]. *)
Definition respects {A} (R : node → node → Prop) (m : M A) : Prop :=
  ∀ s, R s (m s).2.

Section Respects.

Context {R : node → node → Prop} `{!Frame R}.
Local Abbreviation p := (allowed (R:=R)).

Lemma respects_ret {A} (a : A) : respects R (mret a).
Proof. intros s. apply frame_refl. Qed.

Lemma respects_raise {A} e : respects R (raise (A:=A) e).
Proof. intros s. apply frame_refl. Qed.

Lemma respects_out_of_fuel {A} : respects R (out_of_fuel (A:=A)).
Proof. intros s. apply frame_refl. Qed.

Lemma respects_gets {A} (f : node → A) : respects R (gets f).
Proof. intros s. apply frame_refl. Qed.

Lemma respects_modify f : (∀ s, R s (f s)) → respects R (modify f).
Proof. intros Hf s. apply Hf. Qed.

Lemma respects_emit e : p e = true → respects R (emit e).
Proof. intros He s. by apply frame_emit. Qed.

Lemma respects_block : respects R block.
Proof.
  intros s. unfold block. destruct (script s) as [|t rest] eqn:Hs.
  - apply frame_refl.
  - by apply frame_block.
Qed.

Lemma respects_bind {A B} (m : M A) (f : A → M B) :
  respects R m → (∀ a, respects R (f a)) → respects R (m ≫= f).
Proof.
  intros Hm Hf s. rewrite bind_unfold. specialize (Hm s).
  destruct (m s) as [[a| | |] s1]; cbn [snd] in *; try done.
  eapply frame_trans; [exact Hm|apply Hf].
Qed.

Lemma respects_try_except {A} (m : M A) (h : string → M A) :
  respects R m → (∀ e, respects R (h e)) → respects R (try_except m h).
Proof.
  intros Hm Hh s. unfold try_except. specialize (Hm s).
  destruct (m s) as [[a| e | |] s1]; cbn [snd] in *; try done.
  eapply frame_trans; [exact Hm|apply Hh].
Qed.

(** The hypotheses under which the pieces of the executor emit only events
    satisfying [p]. *)
Hypothesis p_sleep : ∀ d, p (EvSleep d) = true.
Hypothesis p_cancel : ∀ id, p (EvCancelGoal id) = true.

Lemma respects_sleep d : respects R (sleep d).
Proof.
  unfold sleep. apply respects_bind; [by apply respects_emit|intros _].
  apply respects_bind; [apply respects_block|intros _; apply respects_ret].
Qed.

Lemma respects_cancelTask : respects R cancelTask.
Proof.
  unfold cancelTask. apply respects_bind; [apply respects_gets|intros [fut|]];
    [|apply respects_ret].
  apply respects_bind; [apply respects_gets|intros [[id acc]|]]; [|apply respects_raise].
  apply respects_bind; [by apply respects_emit|intros _].
  apply respects_bind; [apply respects_block|intros _; apply respects_ret].
Qed.

Lemma respects_check_cancel : respects R check_cancel.
Proof.
  unfold check_cancel. apply respects_bind; [apply respects_gets|intros [|]];
    [|apply respects_ret].
  apply respects_bind; [apply respects_cancelTask|intros _; apply respects_raise].
Qed.

Lemma respects_isTaskComplete : respects R isTaskComplete.
Proof.
  unfold isTaskComplete. apply respects_bind; [apply respects_gets|intros [fut|]];
    [|apply respects_ret].
  apply respects_bind; [apply respects_block|intros t].
  destruct (future_result t); [|apply respects_ret].
  apply respects_bind; [apply respects_modify, frame_status|intros _; apply respects_ret].
Qed.

Lemma respects_found_check : respects R found_check.
Proof.
  unfold found_check. apply respects_bind; [apply respects_gets|intros l].
  destruct (_ || _); [|apply respects_ret].
  apply respects_bind; [apply respects_gets|intros fp].
  destruct (fp !! l) as [[pose|]|]; auto using respects_ret, respects_raise.
Qed.

Lemma respects_task_feedback lvl body :
  (∀ l, p (EvFeedback lvl l body) = true) → respects R (task_feedback lvl body).
Proof.
  intros Hp. unfold task_feedback.
  apply respects_bind; [apply respects_gets|intros l]. by apply respects_emit.
Qed.

Lemma respects_send_goal ev :
  (∀ id, p (ev id) = true) → respects R (send_goal ev).
Proof.
  intros Hp. unfold send_goal.
  apply respects_bind; [apply respects_gets|intros id].
  apply respects_bind; [apply respects_modify, frame_goals_sent|intros _].
  apply respects_bind; [by apply respects_emit|intros _].
  apply respects_bind; [apply respects_block|intros t].
  apply respects_bind; [apply respects_modify, frame_goal_handle|intros _].
  destruct (accepted t); [|apply respects_ret].
  apply respects_bind; [apply respects_modify, frame_result_future|intros _; apply respects_ret].
Qed.

Lemma respects_async_service_call m :
  p (EvTrigger m) = true → respects R (async_service_call m).
Proof.
  intros Hp. unfold async_service_call.
  apply respects_bind; [by apply respects_emit|intros _].
  apply respects_bind; [apply respects_block|intros _; apply respects_ret].
Qed.

End Respects.

Ltac respects_set :=
  apply respects_modify; intros;
  first [ apply frame_goals_sent | apply frame_goal_handle
        | apply frame_result_future | apply frame_status | apply frame_legs
        | by auto ].


Section RespectsNavigation.

Variable cfg : config.
Context {R : node → node → Prop} `{!Frame R}.
Local Abbreviation p := (allowed (R:=R)).
Hypothesis p_sleep : ∀ d, p (EvSleep d) = true.
Hypothesis p_cancel : ∀ id, p (EvCancelGoal id) = true.
Hypothesis p_mapviz_inter : ∀ lat lon, p (EvMapvizInter lat lon) = true.
Hypothesis p_mapviz_goal : ∀ lat lon, p (EvMapvizGoal lat lon) = true.
Hypothesis p_follow : ∀ id path, p (EvFollowGps id path) = true.
Hypothesis p_starting : ∀ lvl l x,
  lvl ≠ Fatal → p (EvFeedback lvl l ("Starting GPS navigation" +:+ x)) = true.
Hypothesis p_report : ∀ lvl l x,
  lvl ≠ Fatal → p (EvFeedback lvl l ("GPS navigation" +:+ x)) = true.
Hypothesis p_improved : ∀ lvl l x,
  lvl ≠ Fatal → p (EvFeedback lvl l ("Improved GPS location found" +:+ x)) = true.

Lemma respects_gps_nav_loop n dest_wp src_string updating :
  respects R (gps_nav_loop n dest_wp src_string updating).
Proof.
  induction n as [|n IH].
  - cbn [gps_nav_loop]. apply respects_bind; [apply respects_isTaskComplete|].
    intros [|]; [apply respects_ret|apply respects_out_of_fuel].
  - cbn [gps_nav_loop]. apply respects_bind; [apply respects_isTaskComplete|].
    intros [|]; [apply respects_ret|].
    apply respects_bind; [by apply respects_sleep|intros _].
    apply respects_bind; [by apply respects_check_cancel|intros _].
    destruct updating.
    + apply respects_bind; [apply respects_found_check|intros [pose|]];
        [|apply respects_raise].
      destruct (materially_changed pose dest_wp); [|apply IH].
      apply respects_bind; [apply respects_task_feedback; intros; by apply p_improved|].
      intros _. apply respects_bind; [by apply respects_cancelTask|intros _].
      apply respects_bind; [by apply respects_sleep|intros _; apply respects_ret].
    + apply respects_bind; [apply respects_found_check|intros [pose|]]; [|apply IH].
      apply respects_bind; [by apply respects_cancelTask|intros _; apply respects_ret].
Qed.

Lemma respects_publish_path path dest_wp : respects R (publish_path path dest_wp).
Proof.
  unfold publish_path. induction path as [|wp path IH]; [apply respects_ret|].
  cbn [foldr]. apply respects_bind; [|intros _; apply IH].
  destruct (negb _); by apply respects_emit.
Qed.

Lemma respects_report_gps src_string :
  respects R (report_result "GPS navigation" src_string).
Proof.
  unfold report_result. apply respects_bind; [|intros r].
  { unfold getResult. apply respects_bind; [apply respects_gets|].
    intros st. apply respects_ret. }
  destruct r; [apply respects_ret|..]; apply respects_task_feedback; intros;
    by apply p_report.
Qed.

Lemma respects_gps_nav fuel dest_wp src_string updating :
  respects R (gps_nav cfg fuel dest_wp src_string updating).
Proof.
  unfold gps_nav.
  apply respects_bind; [apply respects_task_feedback; intros; by apply p_starting|].
  intros _. apply respects_bind; [apply respects_gets|intros gps].
  apply respects_bind.
  { repeat (case_match; try apply respects_ret). apply respects_raise. }
  intros path. apply respects_bind; [apply respects_publish_path|intros _].
  apply respects_bind; [by apply respects_send_goal|intros _].
  apply respects_bind; [apply respects_gps_nav_loop|intros [pose|]];
    [apply respects_ret|].
  apply respects_bind; [apply respects_report_gps|intros _; apply respects_ret].
Qed.

End RespectsNavigation.

Section RespectsMission.

Variable cfg : config.
Context {R : node → node → Prop} `{!Frame R}.
Local Abbreviation p := (allowed (R:=R)).
Hypothesis p_sleep : ∀ d, p (EvSleep d) = true.
Hypothesis p_cancel : ∀ id, p (EvCancelGoal id) = true.
Hypothesis p_mapviz_inter : ∀ lat lon, p (EvMapvizInter lat lon) = true.
Hypothesis p_mapviz_goal : ∀ lat lon, p (EvMapvizGoal lat lon) = true.
Hypothesis p_follow : ∀ id path, p (EvFollowGps id path) = true.
Hypothesis p_spin : ∀ id y t, p (EvSpin id y t) = true.
Hypothesis p_get_state : ∀ name, p (EvGetState name) = true.
Hypothesis p_feedback : ∀ lvl l body,
  lvl ≠ Fatal → p (EvFeedback lvl l body) = true.
Hypothesis p_arrival : p (EvTrigger Arrival) = true.
Hypothesis p_auto : p (EvTrigger Auto) = true.

Local Ltac fb := apply respects_task_feedback; intros; by apply p_feedback.

Lemma respects_gps_nav' fuel dest_wp src_string updating :
  respects R (gps_nav cfg fuel dest_wp src_string updating).
Proof. apply (respects_gps_nav cfg); try done; intros; by apply p_feedback. Qed.

Lemma respects_report_result what src_string :
  respects R (report_result what src_string).
Proof.
  unfold report_result. apply respects_bind; [|intros r].
  { unfold getResult. apply respects_bind; [apply respects_gets|].
    intros st. apply respects_ret. }
  destruct r; [apply respects_ret|..]; fb.
Qed.

Lemma respects_spin_search_loop n : respects R (spin_search_loop n).
Proof.
  induction n as [|n IH]; cbn [spin_search_loop];
    (apply respects_bind; [apply respects_isTaskComplete|]);
    intros [|]; try apply respects_ret; [apply respects_out_of_fuel|].
  apply respects_bind; [by apply respects_sleep|intros _].
  apply respects_bind; [by apply respects_check_cancel|intros _].
  apply respects_bind; [apply respects_found_check|intros [pose|]]; [|apply IH].
  apply respects_bind; [by apply respects_cancelTask|intros _; apply respects_ret].
Qed.

Lemma respects_spin_search fuel src_string : respects R (spin_search fuel src_string).
Proof.
  unfold spin_search. apply respects_bind; [fb|intros _].
  apply respects_bind; [by apply respects_send_goal|intros _].
  apply respects_bind; [apply respects_spin_search_loop|intros [pose|]];
    [apply respects_ret|].
  apply respects_bind; [apply respects_report_result|intros _; apply respects_ret].
Qed.

Lemma respects_hex_search_loop fuel base_wp i coords :
  respects R (hex_search_loop cfg fuel base_wp i coords).
Proof.
  revert i. induction coords as [|coord coords IH]; intros i;
    cbn [hex_search_loop].
  - apply respects_bind; [fb|intros _; apply respects_ret].
  - destruct base_wp as [base|]; [|apply respects_raise].
    apply respects_bind; [apply respects_gps_nav'|intros [pose|]];
      [apply respects_ret|].
    apply respects_bind; [apply respects_spin_search|intros [pose|]];
      [apply respects_ret|apply IH].
Qed.

Lemma respects_hex_search fuel : respects R (hex_search cfg fuel).
Proof.
  unfold hex_search. apply respects_bind; [fb|intros _].
  apply respects_bind; [apply respects_gets|intros l].
  apply respects_bind; [apply respects_gets|intros table].
  apply respects_hex_search_loop.
Qed.

Lemma respects_converge_loop fuel n found_loc print_string :
  respects R (converge_loop cfg fuel n found_loc print_string).
Proof.
  revert found_loc. induction n as [|n IH]; intros found_loc;
    cbn [converge_loop]; [apply respects_out_of_fuel|].
  apply respects_bind; [apply respects_gps_nav'|intros [pose|]];
    [apply IH|apply respects_ret].
Qed.

Lemma respects_signal_arrival : respects R signal_arrival.
Proof.
  unfold signal_arrival. apply respects_bind; [fb|intros _].
  apply respects_bind; [by apply respects_async_service_call|intros _].
  apply respects_bind; [by apply respects_sleep|intros _].
  by apply respects_async_service_call.
Qed.

Lemma respects_search_target fuel found_loc :
  respects R (search_target cfg fuel found_loc).
Proof.
  unfold search_target. apply respects_bind.
  { destruct found_loc; [apply respects_ret|apply respects_spin_search]. }
  intros [pose|]; [apply respects_ret|apply respects_hex_search].
Qed.

Lemma respects_exec_leg fuel l :
  (∀ s, R s (set_leg l s)) → respects R (exec_leg cfg fuel l).
Proof.
  intros R_leg.
  unfold exec_leg. apply respects_bind; [respects_set|intros _].
  destruct (_ || _); [|fb].
  apply respects_bind; [fb|intros _].
  apply respects_bind; [apply respects_gets|intros table].
  destruct (find_wp l table) as [leg_wp|]; [|fb].
  apply respects_bind; [apply respects_gps_nav'|intros found_loc].
  destruct (_ || _).
  - apply respects_bind; [apply respects_search_target|intros [pose|]]; [|fb].
    apply respects_bind; [fb|intros _].
    apply respects_bind; [apply respects_converge_loop|intros _].
    apply respects_bind; [fb|intros _; apply respects_signal_arrival].
  - apply respects_bind; [fb|intros _; apply respects_signal_arrival].
Qed.

Lemma respects_exec_legs fuel ls :
  (∀ l s, l ∈ ls → R s (set_leg l s)) → respects R (exec_legs cfg fuel ls).
Proof.
  induction ls as [|l ls IH]; intros R_leg; cbn [exec_legs];
    [apply respects_ret|].
  apply respects_bind.
  - apply respects_exec_leg. intros s. apply R_leg. by left.
  - intros _. apply IH. intros l' s Hl'. apply R_leg. by right.
Qed.

Lemma respects_wait_gps_fix n : respects R (wait_gps_fix n).
Proof.
  induction n as [|n IH]; cbn [wait_gps_fix];
    (apply respects_bind; [apply respects_gets|]);
    intros [gps|]; try apply respects_ret; [apply respects_out_of_fuel|].
  apply respects_bind; [by apply respects_sleep|intros _].
  apply respects_bind; [fb|intros _].
  apply respects_bind; [by apply respects_check_cancel|intros _; apply IH].
Qed.

Lemma respects_waitForNodeToActivate_loop n name state :
  respects R (waitForNodeToActivate_loop n name state).
Proof.
  revert state. induction n as [|n IH]; intros state;
    cbn [waitForNodeToActivate_loop]; destruct (String.eqb state "active");
    try apply respects_ret; [apply respects_out_of_fuel|].
  apply respects_bind; [by apply respects_emit|intros _].
  apply respects_bind; [apply respects_block|intros t].
  apply respects_bind; [by apply respects_sleep|intros _; apply IH].
Qed.

Lemma respects_waitUntilNav2Active fuel navigator localizer :
  respects R (waitUntilNav2Active fuel navigator localizer).
Proof.
  unfold waitUntilNav2Active. apply respects_bind;
    [|intros _; apply respects_waitForNodeToActivate_loop].
  destruct (String.eqb _ _);
    [apply respects_ret|apply respects_waitForNodeToActivate_loop].
Qed.

Lemma respects_plan_order : respects R (plan_order cfg).
Proof.
  unfold plan_order. do 3 (apply respects_bind; [apply respects_gets|intros ?]).
  repeat (case_match; try apply respects_ret). apply respects_raise.
Qed.

Lemma respects_exec_autonomy_task fuel :
  (∀ v s, R s (set_leg v s)) → respects R (exec_autonomy_task cfg fuel).
Proof.
  intros R_leg.
  unfold exec_autonomy_task. apply respects_bind; [fb|intros _].
  apply respects_bind; [apply respects_wait_gps_fix|intros _].
  apply respects_bind; [fb|intros _].
  apply respects_bind; [fb|intros _].
  apply respects_bind; [apply respects_plan_order|intros ls].
  apply respects_bind; [respects_set|intros _].
  apply respects_bind; [fb|intros _].
  apply respects_bind; [apply respects_waitUntilNav2Active|intros _].
  apply respects_bind; [by apply respects_exec_legs|intros _].
  apply respects_bind; [respects_set|intros _]. fb.
Qed.

End RespectsMission.

(* ===================================================================== *)
(** ** What a piece of the mission thread can add to the trace *)
(* ===================================================================== *)

(** [emits p m]: whatever the state and however it ends, [m] only appends
    events to the trace, all of which satisfy [p], and the script only gets
    shorter. *)
Definition emits_rel (p : event → bool) (s s' : node) : Prop :=
  (∃ evs, trace s' = trace s ++ evs ∧ forallb p evs = true)
  ∧ length (script s') ≤ length (script s).

Section EmitsFrame.

Variable p : event → bool.

Lemma emits_rel_refl s : emits_rel p s s.
Proof. split; [|done]. exists []. by rewrite app_nil_r. Qed.

Lemma emits_rel_trans s1 s2 s3 :
  emits_rel p s1 s2 → emits_rel p s2 s3 → emits_rel p s1 s3.
Proof.
  intros [(evs & Htr & Hp) Hsc] [(evs' & Htr' & Hp') Hsc'].
  split; [|lia]. exists (evs ++ evs').
  rewrite Htr', Htr, app_assoc, forallb_app, Hp, Hp'. done.
Qed.

Lemma emits_rel_emit e s :
  p e = true → emits_rel p s (set_trace (trace s ++ [e]) s).
Proof. intros He. split; [|done]. exists [e]. cbn. by rewrite He. Qed.

Lemma emits_rel_block t rest s :
  script s = t :: rest →
  emits_rel p s (deliver (callbacks t) (set_script rest s)).
Proof.
  intros Hs. unfold emits_rel. rewrite deliver_trace, deliver_script, Hs.
  split; [|cbn; lia]. exists []. by rewrite app_nil_r.
Qed.

Lemma emits_rel_silent s s' :
  trace s' = trace s → script s' = script s → emits_rel p s s'.
Proof.
  intros Htr Hsc. unfold emits_rel. rewrite Htr, Hsc. split; [|done].
  exists []. by rewrite app_nil_r.
Qed.

End EmitsFrame.

#[global] Instance emits_frame p : Frame (emits_rel p) :=
  Build_Frame (emits_rel p) p
    (emits_rel_refl p) (emits_rel_trans p) (emits_rel_emit p)
    (emits_rel_block p)
    (λ v s, emits_rel_silent p s _ eq_refl eq_refl)
    (λ v s, emits_rel_silent p s _ eq_refl eq_refl)
    (λ v s, emits_rel_silent p s _ eq_refl eq_refl)
    (λ v s, emits_rel_silent p s _ eq_refl eq_refl)
    (λ v s, emits_rel_silent p s _ eq_refl eq_refl).

Abbreviation emits p m := (respects (emits_rel p) m).

Lemma emits_rel_set_leg p v s : emits_rel p s (set_leg v s).
Proof. by apply emits_rel_silent. Qed.

(* ===================================================================== *)
(** ** The fuel of the loops is never the reason a run stops *)
(* ===================================================================== *)

(** Every turn of a loop of the executor makes a blocking call, so a loop
    given more fuel than the script has ticks ends on its own or blocks. *)
Definition fueled {A} (k : nat) (m : M A) : Prop :=
  ∀ s, length (script s) < k → (m s).1 ≠ OutOfFuel.

Definition shrinks {A} (m : M A) : Prop :=
  ∀ s, length (script (m s).2) ≤ length (script s).

Definition any_event (e : event) : bool := true.

Lemma emits_shrinks {A} p (m : M A) : emits p m → shrinks m.
Proof. intros Hm s. apply Hm. Qed.

Lemma fueled_zero {A} (m : M A) : fueled 0 m.
Proof. intros s Hs. lia. Qed.

Lemma fueled_always {A} k (m : M A) :
  (∀ s, (m s).1 ≠ OutOfFuel) → fueled k m.
Proof. intros Hm s _. apply Hm. Qed.

Lemma fueled_bind {A B} k (m : M A) (f : A → M B) :
  fueled k m → shrinks m → (∀ a, fueled k (f a)) → fueled k (m ≫= f).
Proof.
  intros Hm Hsh Hf s Hs. rewrite bind_unfold.
  specialize (Hm s Hs). specialize (Hsh s).
  destruct (m s) as [[a| | |] s1]; cbn in *; try done.
  apply Hf. lia.
Qed.

Lemma fueled_block {A} k (f : tick → M A) :
  (∀ t, fueled k (f t)) → fueled (S k) (block ≫= f).
Proof.
  intros Hf s Hs. rewrite bind_unfold. unfold block.
  destruct (script s) as [|t rest] eqn:Hsc; [done|].
  apply Hf. rewrite deliver_script. cbn in *. lia.
Qed.

Lemma fueled_sleep {A} k d (m : M A) :
  fueled k m → fueled (S k) (sleep d;; m).
Proof.
  intros Hm s Hs. rewrite bind_unfold. unfold sleep.
  rewrite bind_unfold. cbn [emit modify]. rewrite bind_unfold. unfold block.
  cbn [script set_trace]. destruct (script s) as [|t rest] eqn:Hsc; [done|].
  cbn [mret M_ret]. apply Hm. rewrite deliver_script. cbn in *. lia.
Qed.

Lemma fueled_try_except {A} k (m : M A) (h : string → M A) :
  fueled k m → shrinks m → (∀ e, fueled k (h e)) → fueled k (try_except m h).
Proof.
  intros Hm Hsh Hh s Hs. unfold try_except.
  specialize (Hm s Hs). specialize (Hsh s).
  destruct (m s) as [[a| e | |] s1]; cbn in *; try done.
  apply Hh. lia.
Qed.

(** The pieces without a loop never report spent fuel. *)
Definition loop_free {A} (m : M A) : Prop := ∀ s, (m s).1 ≠ OutOfFuel.

Lemma loop_free_fueled {A} k (m : M A) : loop_free m → fueled k m.
Proof. intros Hm s _. apply Hm. Qed.

Lemma loop_free_ret {A} (a : A) : loop_free (mret a).
Proof. done. Qed.
Lemma loop_free_raise {A} e : loop_free (raise (A:=A) e).
Proof. done. Qed.
Lemma loop_free_gets {A} (f : node → A) : loop_free (gets f).
Proof. done. Qed.
Lemma loop_free_modify f : loop_free (modify f).
Proof. done. Qed.
Lemma loop_free_emit e : loop_free (emit e).
Proof. done. Qed.
Lemma loop_free_block : loop_free block.
Proof. intros s. unfold block. by destruct (script s). Qed.

Lemma loop_free_bind {A B} (m : M A) (f : A → M B) :
  loop_free m → (∀ a, loop_free (f a)) → loop_free (m ≫= f).
Proof.
  intros Hm Hf s. rewrite bind_unfold. specialize (Hm s).
  destruct (m s) as [[a| | |] s1]; cbn in *; try done. apply Hf.
Qed.

Ltac loop_free_tac :=
  repeat first
    [ apply loop_free_ret | apply loop_free_raise | apply loop_free_gets
    | apply loop_free_modify | apply loop_free_emit | apply loop_free_block
    | apply loop_free_bind | progress intros | case_match ].

Lemma sleep_loop_free d : loop_free (sleep d).
Proof. unfold sleep. loop_free_tac. Qed.
Lemma task_feedback_loop_free lvl body : loop_free (task_feedback lvl body).
Proof. unfold task_feedback. loop_free_tac. Qed.
Lemma async_service_call_loop_free m : loop_free (async_service_call m).
Proof. unfold async_service_call. loop_free_tac. Qed.
Lemma send_goal_loop_free ev : loop_free (send_goal ev).
Proof. unfold send_goal. loop_free_tac. Qed.
Lemma cancelTask_loop_free : loop_free cancelTask.
Proof. unfold cancelTask. loop_free_tac. Qed.
Lemma check_cancel_loop_free : loop_free check_cancel.
Proof.
  unfold check_cancel. apply loop_free_bind; [apply loop_free_gets|].
  intros [|]; [|apply loop_free_ret].
  apply loop_free_bind; [apply cancelTask_loop_free|intros; apply loop_free_raise].
Qed.
Lemma isTaskComplete_loop_free : loop_free isTaskComplete.
Proof. unfold isTaskComplete. loop_free_tac. Qed.
Lemma found_check_loop_free : loop_free found_check.
Proof. unfold found_check. loop_free_tac. Qed.
Lemma report_result_loop_free what src_string :
  loop_free (report_result what src_string).
Proof.
  unfold report_result, getResult, task_info, task_warn, task_error,
    task_feedback. loop_free_tac.
Qed.
Lemma publish_path_loop_free path dest_wp : loop_free (publish_path path dest_wp).
Proof.
  unfold publish_path. induction path as [|wp path IH]; cbn [foldr];
    [apply loop_free_ret|].
  apply loop_free_bind; [|intros; apply IH]. loop_free_tac.
Qed.
Lemma plan_order_loop_free cfg : loop_free (plan_order cfg).
Proof. unfold plan_order. loop_free_tac. Qed.
Lemma signal_arrival_loop_free : loop_free signal_arrival.
Proof.
  unfold signal_arrival.
  apply loop_free_bind; [apply task_feedback_loop_free|intros _].
  apply loop_free_bind; [apply async_service_call_loop_free|intros _].
  apply loop_free_bind; [apply sleep_loop_free|intros _].
  apply async_service_call_loop_free.
Qed.

Section Fuel.

Variable cfg : config.

Local Ltac lf := apply loop_free_fueled;
  first [ apply task_feedback_loop_free | apply sleep_loop_free
        | apply check_cancel_loop_free | apply cancelTask_loop_free
        | apply isTaskComplete_loop_free | apply found_check_loop_free
        | apply report_result_loop_free | apply publish_path_loop_free
        | apply send_goal_loop_free | apply plan_order_loop_free
        | apply signal_arrival_loop_free | apply async_service_call_loop_free
        | apply loop_free_ret | apply loop_free_raise | apply loop_free_gets
        | apply loop_free_modify | apply loop_free_emit ].

Local Ltac sh := eapply (emits_shrinks any_event);
  first [ apply respects_task_feedback; done | apply respects_sleep; done
        | apply respects_check_cancel; done | apply respects_cancelTask; done
        | apply respects_isTaskComplete | apply respects_found_check
        | apply respects_report_result; done | apply respects_publish_path; done
        | apply respects_send_goal; done | apply (respects_plan_order cfg)
        | apply respects_signal_arrival; done
        | apply respects_async_service_call; done
        | apply (respects_gps_nav cfg); done
        | apply respects_spin_search; done
        | apply (respects_hex_search cfg); done
        | apply (respects_search_target cfg); done
        | apply (respects_converge_loop cfg); done
        | apply (respects_exec_leg cfg); first [done|apply emits_rel_set_leg]
        | apply (respects_exec_legs cfg);
          first [done|intros; apply emits_rel_set_leg]
        | apply respects_wait_gps_fix; done
        | apply respects_waitUntilNav2Active; done
        | apply respects_ret | apply respects_raise | apply respects_gets
        | apply respects_modify; intros; by apply emits_rel_silent
        | apply respects_emit; done ].

Lemma gps_nav_loop_fueled n dest_wp src_string updating k :
  k ≤ n → fueled k (gps_nav_loop n dest_wp src_string updating).
Proof.
  revert k. induction n as [|n IH]; intros k Hk.
  { assert (k = 0) as -> by lia. apply fueled_zero. }
  destruct k as [|k]; [apply fueled_zero|].
  cbn [gps_nav_loop]. apply fueled_bind; [lf|sh|].
  intros [|]; [lf|]. apply fueled_sleep.
  apply fueled_bind; [lf|sh|intros _].
  assert (fueled k (gps_nav_loop n dest_wp src_string updating)) as Hloop
    by (apply IH; lia).
  destruct updating.
  - apply fueled_bind; [lf|sh|]. intros [pose|]; [|lf].
    destruct (materially_changed pose dest_wp); [|done].
    apply fueled_bind; [lf|sh|intros _].
    apply fueled_bind; [lf|sh|intros _].
    apply fueled_bind; [lf|sh|intros _]. lf.
  - apply fueled_bind; [lf|sh|]. intros [pose|]; [|done].
    apply fueled_bind; [lf|sh|intros _]. lf.
Qed.

Lemma gps_nav_fueled fuel dest_wp src_string updating k :
  k ≤ fuel → fueled k (gps_nav cfg fuel dest_wp src_string updating).
Proof.
  intros Hk. unfold gps_nav. apply fueled_bind; [lf|sh|intros _].
  apply fueled_bind; [lf|sh|intros gps].
  apply fueled_bind.
  { repeat case_match; lf. }
  { repeat case_match; sh. }
  intros path. apply fueled_bind; [lf|sh|intros _].
  apply fueled_bind; [lf|sh|intros _].
  apply fueled_bind; [by apply gps_nav_loop_fueled| |].
  { eapply (emits_shrinks any_event). by apply respects_gps_nav_loop. }
  intros [pose|]; [lf|]. apply fueled_bind; [lf|sh|intros _]. lf.
Qed.

Lemma fueled_mono {A} k k' (m : M A) : k' ≤ k → fueled k m → fueled k' m.
Proof. intros Hk Hm s Hs. apply Hm. lia. Qed.

Lemma spin_search_loop_fueled n k : k ≤ n → fueled k (spin_search_loop n).
Proof.
  revert k. induction n as [|n IH]; intros k Hk.
  { assert (k = 0) as -> by lia. apply fueled_zero. }
  destruct k as [|k]; [apply fueled_zero|].
  cbn [spin_search_loop]. apply fueled_bind; [lf|sh|].
  intros [|]; [lf|]. apply fueled_sleep.
  apply fueled_bind; [lf|sh|intros _].
  apply fueled_bind; [lf|sh|]. intros [pose|]; [|apply IH; lia].
  apply fueled_bind; [lf|sh|intros _]. lf.
Qed.

Lemma spin_search_fueled fuel src_string k :
  k ≤ fuel → fueled k (spin_search fuel src_string).
Proof.
  intros Hk. unfold spin_search. apply fueled_bind; [lf|sh|intros _].
  apply fueled_bind; [lf|sh|intros _].
  apply fueled_bind; [by apply spin_search_loop_fueled| |].
  { eapply (emits_shrinks any_event). by apply respects_spin_search_loop. }
  intros [pose|]; [lf|]. apply fueled_bind; [lf|sh|intros _]. lf.
Qed.

Lemma hex_search_loop_fueled fuel base_wp i coords k :
  k ≤ fuel → fueled k (hex_search_loop cfg fuel base_wp i coords).
Proof.
  intros Hk. revert i. induction coords as [|coord coords IH]; intros i;
    cbn [hex_search_loop].
  { apply fueled_bind; [lf|sh|intros _]. lf. }
  destruct base_wp as [base|]; [|lf].
  apply fueled_bind; [by apply gps_nav_fueled|sh|].
  intros [pose|]; [lf|].
  apply fueled_bind; [by apply spin_search_fueled|sh|].
  intros [pose|]; [lf|apply IH].
Qed.

Lemma hex_search_fueled fuel k : k ≤ fuel → fueled k (hex_search cfg fuel).
Proof.
  intros Hk. unfold hex_search. apply fueled_bind; [lf|sh|intros _].
  apply fueled_bind; [lf|sh|intros l].
  apply fueled_bind; [lf|sh|intros table].
  by apply hex_search_loop_fueled.
Qed.

Lemma search_target_fueled fuel found_loc k :
  k ≤ fuel → fueled k (search_target cfg fuel found_loc).
Proof.
  intros Hk. unfold search_target. apply fueled_bind.
  { destruct found_loc; [lf|by apply spin_search_fueled]. }
  { destruct found_loc; sh. }
  intros [pose|]; [lf|by apply hex_search_fueled].
Qed.

(** Sending a goal takes a tick, so every [gps_nav] that returns has taken
    one: this is what bounds the convergence loop. *)
Lemma send_goal_consumes ev s b s1 :
  send_goal ev s = (Ret b, s1) → length (script s1) < length (script s).
Proof.
  unfold send_goal. rewrite bind_unfold. cbn [gets].
  rewrite bind_unfold. cbn [modify]. rewrite bind_unfold. cbn [emit modify].
  rewrite bind_unfold. unfold block. cbn [script set_trace set_goals_sent].
  destruct (script s) as [|t rest]; [done|].
  rewrite bind_unfold. cbn [modify].
  destruct (accepted t); [rewrite bind_unfold; cbn [modify mret M_ret]|
                          cbn [mret M_ret]];
    intros [= _ <-]; cbn [script set_result_future set_goal_handle];
    rewrite deliver_script; cbn; lia.
Qed.

Lemma bind_ret_inv_shrinks {A B} (m : M A) (f : A → M B) s b s' :
  shrinks m → (m ≫= f) s = (Ret b, s') →
  ∃ a s1, length (script s1) ≤ length (script s) ∧ f a s1 = (Ret b, s').
Proof.
  intros Hsh H. apply bind_ret_inv in H as (a & s1 & Hm & Hf).
  exists a, s1. split; [|done]. specialize (Hsh s). by rewrite Hm in Hsh.
Qed.

Lemma gps_nav_consumes fuel dest_wp src_string updating s r s' :
  gps_nav cfg fuel dest_wp src_string updating s = (Ret r, s') →
  length (script s') < length (script s).
Proof.
  unfold gps_nav. intros H.
  apply bind_ret_inv_shrinks in H as (_ & s1 & Hs1 & H); [|sh].
  apply bind_ret_inv_shrinks in H as (gps & s2 & Hs2 & H); [|sh].
  apply bind_ret_inv_shrinks in H as (path & s3 & Hs3 & H);
    [|repeat case_match; sh].
  apply bind_ret_inv_shrinks in H as (_ & s4 & Hs4 & H); [|sh].
  apply bind_ret_inv in H as (b & s5 & Hsend & H).
  apply send_goal_consumes in Hsend.
  assert (length (script s') ≤ length (script s5)) as Hrest; [|lia].
  match type of H with ?m s5 = _ =>
    assert (shrinks m) as Hsh; [|specialize (Hsh s5); by rewrite H in Hsh]
  end.
  eapply (emits_shrinks any_event). apply respects_bind.
  { by apply respects_gps_nav_loop. }
  intros [pose|]; [apply respects_ret|].
  apply respects_bind; [by apply respects_report_result|intros _; apply respects_ret].
Qed.

Lemma converge_loop_fueled fuel n found_loc print_string k :
  k ≤ n → k ≤ fuel →
  fueled k (converge_loop cfg fuel n found_loc print_string).
Proof.
  revert k found_loc. induction n as [|n IH]; intros k found_loc Hk Hfuel.
  { assert (k = 0) as -> by lia. apply fueled_zero. }
  intros s Hs. cbn [converge_loop]. rewrite bind_unfold.
  pose proof (gps_nav_fueled fuel found_loc (" (" +:+ print_string +:+ ")") true
                k Hfuel s Hs) as Hnav.
  destruct (gps_nav _ _ _ _ _ s) as [[[pose|]| | |] s1] eqn:Hrun;
    cbn in *; try done.
  apply gps_nav_consumes in Hrun.
  apply (IH (k - 1)); lia.
Qed.

Lemma exec_leg_fueled fuel l k : k ≤ fuel → fueled k (exec_leg cfg fuel l).
Proof.
  intros Hk. unfold exec_leg. apply fueled_bind; [lf|sh|intros _].
  destruct (_ || _); [|lf].
  apply fueled_bind; [lf|sh|intros _].
  apply fueled_bind; [lf|sh|intros table].
  destruct (find_wp l table) as [leg_wp|]; [|lf].
  apply fueled_bind; [by apply gps_nav_fueled|sh|intros found_loc].
  destruct (_ || _).
  - apply fueled_bind; [by apply search_target_fueled|sh|].
    intros [pose|]; [|lf].
    apply fueled_bind; [lf|sh|intros _].
    apply fueled_bind; [by apply converge_loop_fueled|sh|intros _].
    apply fueled_bind; [lf|sh|intros _]. lf.
  - apply fueled_bind; [lf|sh|intros _]. lf.
Qed.

Lemma exec_legs_fueled fuel ls k : k ≤ fuel → fueled k (exec_legs cfg fuel ls).
Proof.
  intros Hk. induction ls as [|l ls IH]; cbn [exec_legs]; [lf|].
  apply fueled_bind; [by apply exec_leg_fueled|sh|intros _; apply IH].
Qed.

Lemma wait_gps_fix_fueled n k : k ≤ n → fueled k (wait_gps_fix n).
Proof.
  revert k. induction n as [|n IH]; intros k Hk.
  { assert (k = 0) as -> by lia. apply fueled_zero. }
  destruct k as [|k]; [apply fueled_zero|].
  cbn [wait_gps_fix]. apply fueled_bind; [lf|sh|].
  intros [gps|]; [lf|]. apply fueled_sleep.
  apply fueled_bind; [lf|sh|intros _].
  apply fueled_bind; [lf|sh|intros _]. apply IH. lia.
Qed.

Lemma waitForNodeToActivate_loop_fueled n name state k :
  k ≤ n → fueled k (waitForNodeToActivate_loop n name state).
Proof.
  revert k state. induction n as [|n IH]; intros k state Hk.
  { assert (k = 0) as -> by lia. apply fueled_zero. }
  destruct k as [|k]; [apply fueled_zero|].
  cbn [waitForNodeToActivate_loop]. destruct (String.eqb state "active"); [lf|].
  apply fueled_bind; [lf|sh|intros _].
  apply fueled_block. intros t.
  apply (fueled_mono (S k)); [lia|]. apply fueled_sleep. apply IH. lia.
Qed.

Lemma waitUntilNav2Active_fueled fuel navigator localizer k :
  k ≤ fuel → fueled k (waitUntilNav2Active fuel navigator localizer).
Proof.
  intros Hk. unfold waitUntilNav2Active. apply fueled_bind.
  - destruct (String.eqb _ _); [lf|by apply waitForNodeToActivate_loop_fueled].
  - eapply (emits_shrinks any_event). destruct (String.eqb _ _);
      [apply respects_ret|by apply respects_waitForNodeToActivate_loop].
  - intros _. by apply waitForNodeToActivate_loop_fueled.
Qed.

Lemma exec_autonomy_task_fueled fuel k :
  k ≤ fuel → fueled k (exec_autonomy_task cfg fuel).
Proof.
  intros Hk. unfold exec_autonomy_task. apply fueled_bind; [lf|sh|intros _].
  apply fueled_bind; [by apply wait_gps_fix_fueled|sh|intros _].
  apply fueled_bind; [lf|sh|intros _].
  apply fueled_bind; [lf|sh|intros _].
  apply fueled_bind; [lf|sh|intros ls].
  apply fueled_bind; [lf|sh|intros _].
  apply fueled_bind; [lf|sh|intros _].
  apply fueled_bind; [by apply waitUntilNav2Active_fueled|sh|intros _].
  apply fueled_bind; [by apply exec_legs_fueled|sh|intros _].
  apply fueled_bind; [lf|sh|intros _]. lf.
Qed.

End Fuel.

(* ===================================================================== *)
(** ** The shape of a run of the action server callback *)
(* ===================================================================== *)

Definition msg_no_legs : string := "Well that was less-than-interstellar of you".
Definition msg_succeeded : string :=
  "One small step for a rover, one giant leap for roverkind".
Definition msg_failed : string := "It was the aliens, I'm telling you".

(** The node after the assignments [action_server_callback] starts with. *)
Definition init_mission (request_legs : list string) (table : list waypoint)
    (s : node) : node :=
  set_legs request_legs
    (set_found_poses no_found_poses
      (set_leg "start"
        (set_legs []
          (set_cancel_flag false
            (set_is_cancel_requested false (set_wps table s)))))).

(** What happens between the first and the last mode switch of a mission is
    neither a switch to teleop, nor a transition of the task goal, nor a fatal
    line. *)
Definition is_fatal (e : event) : bool :=
  match e with EvFeedback Fatal _ _ => true | _ => false end.

Definition inside_mission (e : event) : bool :=
  negb (is_teleop e) && negb (is_goal_transition e) && negb (is_fatal e).

Section CallbackShape.

Variable cfg : config.

Lemma action_server_callback_no_legs fuel table s :
  action_server_callback cfg fuel [] table s
  = (Ret msg_no_legs,
     set_trace (trace s ++ [EvFeedback Fatal "start" "No task legs provided";
                            EvGoal Abort])
       (init_mission [] table s)).
Proof.
  unfold action_server_callback, task_fatal, task_feedback.
  repeat mstep. unfold init_mission. cbn. by rewrite <- app_assoc.
Qed.

Lemma async_service_call_ret m s u s1 :
  async_service_call m s = (Ret u, s1) →
  trace s1 = trace s ++ [EvTrigger m] ∧ length (script s1) < length (script s)
  ∧ leg s1 = leg s.
Proof.
  unfold async_service_call. rewrite bind_unfold. cbn [emit modify].
  rewrite bind_unfold. unfold block. cbn [script set_trace].
  destruct (script s) as [|t rest]; [done|]. cbn [mret M_ret].
  intros [= _ <-]. rewrite deliver_trace, deliver_script, deliver_leg.
  cbn. split; [done|]. split; [lia|done].
Qed.

Lemma async_service_call_outcome m s :
  (∃ s1, async_service_call m s = (Ret tt, s1))
  ∨ (∃ s1, async_service_call m s = (Blocked, s1)).
Proof.
  unfold async_service_call. mstep. mstep. unfold block. cbn [script set_trace].
  destruct (script s) as [|t rest]; eauto.
Qed.

(** The part of the callback between the two mode switches of a mission with
    legs, and the two switches. *)
Definition guarded_mission (fuel : nat) : M string :=
  async_service_call Auto;;
  msg ← try_except
    (exec_autonomy_task cfg fuel;; emit (EvGoal Succeed);; mret msg_succeeded)
    (λ e, task_fatal e;; emit (EvGoal Abort);; mret msg_failed);
  async_service_call Teleop;;
  mret msg.

Lemma action_server_callback_legs fuel l ls table s :
  action_server_callback cfg fuel (l :: ls) table s
  = guarded_mission fuel (init_mission (l :: ls) table s).
Proof. unfold action_server_callback. by repeat mstep. Qed.

Lemma exec_autonomy_task_inside fuel : emits inside_mission (exec_autonomy_task cfg fuel).
Proof.
  apply (respects_exec_autonomy_task cfg); try done; [by intros []|].
  intros. apply emits_rel_set_leg.
Qed.

(** A mission with legs that returns: the autonomy switch, the mission, the
    transition of the task goal (after the fatal line when an exception was
    caught), the teleop switch. *)
Lemma callback_returns fuel l ls table s msg s' :
  action_server_callback cfg fuel (l :: ls) table s = (Ret msg, s') →
  ∃ body, forallb inside_mission body = true ∧
    ((msg = msg_succeeded ∧
      trace s' = trace s ++ EvTrigger Auto :: body
                   ++ [EvGoal Succeed; EvTrigger Teleop])
     ∨ (∃ cur e, msg = msg_failed ∧
        trace s' = trace s ++ EvTrigger Auto :: body
                     ++ [EvFeedback Fatal cur e; EvGoal Abort; EvTrigger Teleop])).
Proof.
  rewrite action_server_callback_legs. unfold guarded_mission. intros H.
  apply bind_ret_inv in H as (u & s1 & Hauto & H).
  apply async_service_call_ret in Hauto as (Htr1 & _ & _).
  apply bind_ret_inv in H as (msg' & s2 & Htry & H).
  apply bind_ret_inv in H as (u' & s3 & Htele & H).
  apply async_service_call_ret in Htele as (Htr3 & _ & _).
  injection H as <- <-.
  unfold try_except in Htry. rewrite bind_unfold in Htry.
  destruct (exec_autonomy_task_inside fuel s1) as [(body & Hbody & Hin) _].
  destruct (exec_autonomy_task cfg fuel s1) as [[[]|e| |] s1'] eqn:Hrun;
    cbn [snd] in Hbody; try done.
  - cbn in Htry. injection Htry as <- <-. exists body. split; [done|]. left.
    split; [done|]. rewrite Htr3. cbn [trace set_trace]. rewrite Hbody, Htr1.
    cbn [trace init_mission set_legs set_found_poses set_leg set_cancel_flag
           set_is_cancel_requested set_wps].
    by rewrite <- !app_assoc.
  - cbn in Htry. injection Htry as <- <-. exists body. split; [done|]. right.
    exists (leg s1'), e. split; [done|].
    rewrite Htr3. cbn [trace set_trace]. rewrite Hbody, Htr1.
    cbn [trace init_mission set_legs set_found_poses set_leg set_cancel_flag
           set_is_cancel_requested set_wps].
    by rewrite <- !app_assoc.
Qed.

(** With the fuel of [run_mission] a run returns or is blocked on the world. *)
Lemma callback_total fuel request_legs table s :
  length (script s) < fuel →
  match (action_server_callback cfg fuel request_legs table s).1 with
  | Ret _ | Blocked => True
  | Raise _ | OutOfFuel => False
  end.
Proof.
  intros Hfuel. destruct request_legs as [|l ls].
  { by rewrite action_server_callback_no_legs. }
  rewrite action_server_callback_legs. unfold guarded_mission.
  rewrite bind_unfold.
  destruct (async_service_call_outcome Auto (init_mission (l :: ls) table s))
    as [[s1 Hauto]|[s1 Hauto]]; rewrite Hauto; [|done].
  apply async_service_call_ret in Hauto as (_ & Hsc & _).
  rewrite bind_unfold. unfold try_except. rewrite bind_unfold.
  pose proof (exec_autonomy_task_fueled cfg fuel fuel (le_n _) s1) as Hf.
  destruct (exec_autonomy_task cfg fuel s1) as [[[]|e| |] s1'] eqn:Hrun;
    [| |done|exfalso; apply Hf; [cbn in Hsc; lia|done]].
  - repeat mstep.
    match goal with |- context [async_service_call Teleop ?x] =>
      destruct (async_service_call_outcome Teleop x) as [[s3 Ht]|[s3 Ht]]
    end; by rewrite Ht.
  - unfold task_fatal, task_feedback. repeat mstep.
    match goal with |- context [async_service_call Teleop ?x] =>
      destruct (async_service_call_outcome Teleop x) as [[s3 Ht]|[s3 Ht]]
    end; by rewrite Ht.
Qed.

End CallbackShape.

(* ===================================================================== *)
(** ** Scenarios *)
(* ===================================================================== *)

Module Scenario.

(** Modelled from the spec: the planners of rover_navigation/utils are not
    part of the executor; here the order planner "returns the legs unchanged
    (no-reorder)" and a path is the straight line to the destination. *)
Definition planners : config :=
  mkConfig "basicPathPlanner" "noOrderPlanner"
    (λ _ dest, [dest]) (λ _ dest, [dest])
    (λ ls _ _, ls) (λ ls _ _, ls) (λ ls _ _, ls) (λ ls _ _, ls).

(** The node between two missions, before and after its first GPS fix. *)
Definition no_fix : node :=
  mkNode [] [] "" ∅ false None None None None false 0 [] [].
Definition idle : node :=
  set_filtered_gps (Some (latLonYaw2Geopose 40.0 (-111.0))) no_fix.

Definition table : list waypoint :=
  [ mkWaypoint "gps1" 40.001 (-111.001);
    mkWaypoint "gps2" 40.003 (-111.003);
    mkWaypoint "aruco1" 40.002 (-111.002) ]%float.

(** Ticks: nothing happens; the motion task ends; the navigator is active; a
    cancel request comes in; marker 1 is seen 0.00002 degrees north of the
    nominal waypoint of aruco1. *)
Definition quiet : tick := mkTick [] true None None.
Definition done_ : tick := mkTick [] true (Some STATUS_SUCCEEDED) None.
Definition active : tick := mkTick [] true None (Some "active"%string).
Definition cancel : tick := mkTick [CancelRequest] true None None.
Definition seen : tick :=
  mkTick [ArucoMsg [mkMarker 1 (Some (40.00202, -111.002)%float)]] true None None.

(** A leg whose navigation takes one polling turn and succeeds, then the
    arrival signal: goal, poll, sleep, poll, arrival, wait, autonomy. *)
Definition plain_leg : list tick := [quiet; quiet; quiet; done_; quiet; quiet; quiet].

(** The start of every mission with a fix: autonomy switch, navigator state,
    the two seconds of sleep. *)
Definition start : list tick := [quiet; active; quiet].

(** The two-leg mission of the spec: gps1 plainly, then aruco1 whose
    navigation ends without a detection, whose spin search sees the marker in
    its first turn, and whose convergence takes one navigation. *)
Definition two_legs : list tick :=
  start ++ plain_leg
  ++ [quiet; done_]                     (* aruco1: goal, poll *)
  ++ [quiet; quiet; seen; quiet]        (* spin goal, poll, sleep, cancel *)
  ++ [quiet; quiet; quiet; done_]       (* convergence: goal, poll, sleep, poll *)
  ++ [quiet; quiet; quiet]              (* arrival, wait, autonomy *)
  ++ [quiet].                           (* teleop *)

(** The cancellation of the spec: the request arrives during the first sleep
    of the spin search of aruco1. *)
Definition cancel_in_spin : list tick :=
  start ++ [quiet; done_] ++ [quiet; quiet; cancel; quiet] ++ [quiet].

(** A cancel request while the node still waits for its first GPS fix. *)
Definition cancel_in_gps_wait : list tick := [quiet; cancel; quiet].

(** Two GPS legs, for a table that may lack the first. *)
Definition two_gps_legs : list tick :=
  start ++ plain_leg ++ plain_leg ++ [quiet].

End Scenario.

(* ===================================================================== *)
(** ** The claims *)
(* ===================================================================== *)

Lemma new_events_app s s' evs :
  trace s' = trace s ++ evs → new_events s s' = evs.
Proof. intros H. unfold new_events. rewrite H. by rewrite drop_app_length. Qed.

Lemma mode_switches_app evs evs' :
  mode_switches (evs ++ evs') = mode_switches evs ++ mode_switches evs'.
Proof. apply omap_app. Qed.

Lemma goal_transitions_app evs evs' :
  goal_transitions (evs ++ evs')
  = goal_transitions evs ++ goal_transitions evs'.
Proof. apply omap_app. Qed.

Lemma inside_mission_no_goal_transition body :
  forallb inside_mission body = true → goal_transitions body = [].
Proof.
  induction body as [|e body IH]; [done|]. cbn [forallb].
  intros [He Hb]%andb_true_iff. specialize (IH Hb).
  unfold goal_transitions in *. by destruct e.
Qed.

Lemma inside_mission_no_teleop body :
  forallb inside_mission body = true →
  forallb (λ e, negb (is_teleop e)) body = true.
Proof.
  induction body as [|e body IH]; [done|]. cbn [forallb].
  intros [He Hb]%andb_true_iff. rewrite IH by done.
  unfold inside_mission in He. by destruct (is_teleop e).
Qed.

(** C2 (amended). A mission asked with legs that returns has switched to
    autonomy first and to teleop last, and to teleop at no other moment; a
    mission asked without legs returns without any mode switch. With the fuel
    of [run_mission] a run can only return or be blocked on the world. *)
Theorem teleop_switch_on_exit cfg request_legs table world s :
  match run_mission cfg request_legs table world s with
  | (Ret msg, s') =>
      match request_legs with
      | [] => mode_switches (new_events s s') = []
      | _ :: _ =>
          ∃ body, new_events s s' = EvTrigger Auto :: body ++ [EvTrigger Teleop]
                  ∧ forallb (λ e, negb (is_teleop e)) body = true
      end
  | (Blocked, _) => True
  | (Raise _, _) | (OutOfFuel, _) => False
  end.
Proof.
  unfold run_mission.
  pose proof (callback_total cfg (S (length world)) request_legs table
                (set_script world s)) as Htotal.
  destruct (action_server_callback _ _ _ _ _) as [[msg|e| |] s'] eqn:Hrun;
    cbn [fst] in Htotal; try done; try (apply Htotal; cbn; lia).
  destruct request_legs as [|l ls].
  - rewrite action_server_callback_no_legs in Hrun. injection Hrun as _ <-.
    by erewrite new_events_app by done.
  - apply callback_returns in Hrun as (body & Hbody & [[_ Htr]|(cur & e & _ & Htr)]).
    + exists (body ++ [EvGoal Succeed]). split.
      * erewrite new_events_app; [|exact Htr]. by rewrite <- app_assoc.
      * rewrite forallb_app, inside_mission_no_teleop by done. done.
    + exists (body ++ [EvFeedback Fatal cur e; EvGoal Abort]). split.
      * erewrite new_events_app; [|exact Htr]. by rewrite <- app_assoc.
      * rewrite forallb_app, inside_mission_no_teleop by done. done.
Qed.

(** C2, as stated, fails on a goal without legs: the callback returns its
    result and has not switched to teleop. *)
Lemma no_legs_no_teleop :
  let r := run_mission Scenario.planners [] Scenario.table [] Scenario.idle in
  r.1 = Ret msg_no_legs
  ∧ mode_switches (new_events Scenario.idle r.2) = []
  ∧ length (filter (λ e, is_teleop e = true) (new_events Scenario.idle r.2)) ≠ 1.
Proof. vm_compute. split; [done|]. split; [done|]. lia. Qed.

(** The fatal line an observed cancellation ends in. *)
Definition reports_cancel (e : event) : bool :=
  match e with
  | EvFeedback Fatal _ body => String.eqb body canceled_msg
  | _ => false
  end.

Lemma inside_mission_no_cancel_report body :
  forallb inside_mission body = true → existsb reports_cancel body = false.
Proof.
  induction body as [|e body IH]; [done|]. cbn [forallb existsb].
  intros [He Hb]%andb_true_iff. rewrite IH by done.
  destruct e as [[]| | | | | | | | |]; done.
Qed.

Lemma goal_transitions_mission body tl :
  forallb inside_mission body = true →
  goal_transitions (EvTrigger Auto :: body ++ tl) = goal_transitions tl.
Proof.
  intros Hbody. change (goal_transitions (body ++ tl) = goal_transitions tl).
  by rewrite goal_transitions_app, inside_mission_no_goal_transition.
Qed.

Lemma existsb_mission body tl :
  forallb inside_mission body = true →
  existsb reports_cancel (EvTrigger Auto :: body ++ tl)
  = existsb reports_cancel tl.
Proof.
  intros Hbody. cbn [existsb reports_cancel orb].
  by rewrite existsb_app, inside_mission_no_cancel_report.
Qed.

(** C3 (amended). The executor never marks the task goal canceled: a mission
    that returns has made exactly one transition of the goal, [succeed] with
    the success message or [abort] with a failure message, and a mission whose
    cancellation was observed (the fatal line says so) is aborted with the
    very message of any other exception. *)
Theorem cancellation_reported_as_abort cfg request_legs table world s msg s' :
  run_mission cfg request_legs table world s = (Ret msg, s') →
  (goal_transitions (new_events s s') = [Succeed] ∧ msg = msg_succeeded
   ∨ goal_transitions (new_events s s') = [Abort]
     ∧ (msg = msg_failed ∨ msg = msg_no_legs))
  ∧ (existsb reports_cancel (new_events s s') = true →
     goal_transitions (new_events s s') = [Abort] ∧ msg = msg_failed).
Proof.
  unfold run_mission. intros Hrun. destruct request_legs as [|l ls].
  { rewrite action_server_callback_no_legs in Hrun. injection Hrun as <- <-.
    erewrite new_events_app by done. split; [right; by auto|done]. }
  apply callback_returns in Hrun
    as (body & Hbody & [[-> Htr]|(cur & e & -> & Htr)]);
    (erewrite new_events_app; [|exact Htr]);
    rewrite goal_transitions_mission by done.
  - split; [by left|]. rewrite existsb_mission by done. done.
  - split; [right; by auto|done].
Qed.

Module ScenarioFailure.

(** A node configured with a path planner that does not exist. *)
Definition planners : config :=
  mkConfig "straightPathPlanner" "noOrderPlanner"
    (λ _ dest, [dest]) (λ _ dest, [dest])
    (λ ls _ _, ls) (λ ls _ _, ls) (λ ls _ _, ls) (λ ls _ _, ls).

Definition world : list tick := Scenario.start ++ [Scenario.quiet].

End ScenarioFailure.

(** C3, as stated, fails on the cancellation scenario of the spec: the
    request arrives during the spin search of aruco1, it is observed, and the
    caller gets an aborted goal with the message an unknown path planner
    gets. *)
Lemma canceled_mission_is_aborted :
  let r := run_mission Scenario.planners ["aruco1"%string] Scenario.table
             Scenario.cancel_in_spin Scenario.idle in
  let f := run_mission ScenarioFailure.planners ["gps1"%string] Scenario.table
             ScenarioFailure.world Scenario.idle in
  r.1 = Ret msg_failed
  ∧ existsb reports_cancel (new_events Scenario.idle r.2) = true
  ∧ goal_transitions (new_events Scenario.idle r.2) = [Abort]
  ∧ (Canceled ∉ goal_transitions (new_events Scenario.idle r.2))
  ∧ f.1 = r.1
  ∧ goal_transitions (new_events Scenario.idle f.2)
    = goal_transitions (new_events Scenario.idle r.2).
Proof.
  intros r f.
  assert (goal_transitions (new_events Scenario.idle r.2) = [Abort]) as ->
    by (vm_compute; reflexivity).
  repeat split; try (vm_compute; reflexivity).
  by intros [=]%list_elem_of_singleton.
Qed.

Lemma cancellation_reported_as_abort_witness :
  let r := run_mission Scenario.planners ["aruco1"%string] Scenario.table
             Scenario.cancel_in_spin Scenario.idle in
  r = (Ret msg_failed, r.2)
  ∧ (goal_transitions (new_events Scenario.idle r.2) = [Succeed]
       ∧ msg_failed = msg_succeeded
     ∨ goal_transitions (new_events Scenario.idle r.2) = [Abort]
       ∧ (msg_failed = msg_failed ∨ msg_failed = msg_no_legs))
    ∧ (existsb reports_cancel (new_events Scenario.idle r.2) = true →
       goal_transitions (new_events Scenario.idle r.2) = [Abort]
       ∧ msg_failed = msg_failed).
Proof.
  split; [vm_compute; reflexivity|].
  apply (cancellation_reported_as_abort Scenario.planners ["aruco1"%string]
           Scenario.table Scenario.cancel_in_spin Scenario.idle).
  vm_compute; reflexivity.
Defined.

(** C8. While a GPS leg executes, no spin goal is sent and neither the spin
    search nor the hex search starts: none of their marks enters the trace,
    however the leg ends. *)
Theorem gps_leg_never_searches cfg fuel l s :
  is_gps_leg l = true →
  ∃ evs, trace (exec_leg cfg fuel l s).2 = trace s ++ evs
         ∧ forallb (λ e, negb (is_search_event e)) evs = true.
Proof.
  intros Hgps.
  assert (is_aruco_leg l || is_obj_leg l = false) as Htarget.
  { unfold is_gps_leg, gps_legs in Hgps. apply bool_decide_eq_true in Hgps.
    set_unfold in Hgps. by destruct Hgps as [->|[->|[]]]. }
  set (p := λ e, negb (is_search_event e)).
  assert (∀ dest src u, emits p (gps_nav cfg fuel dest src u)) as Hnav.
  { intros. apply (respects_gps_nav cfg); try done; by intros []. }
  assert (emits p (exec_leg cfg fuel l)) as Hleg; [|apply Hleg].
  unfold exec_leg, print_string_of. rewrite Hgps, Htarget. cbn [orb].
  apply respects_bind; [apply respects_modify, emits_rel_set_leg|intros _].
  apply respects_bind; [by apply respects_task_feedback|intros _].
  apply respects_bind; [apply respects_gets|intros table].
  destruct (find_wp l table) as [leg_wp|]; [|by apply respects_task_feedback].
  apply respects_bind; [apply Hnav|intros found_loc].
  apply respects_bind; [by apply respects_task_feedback|intros _].
  unfold signal_arrival.
  apply respects_bind; [by apply respects_task_feedback|intros _].
  apply respects_bind; [by apply respects_async_service_call|intros _].
  apply respects_bind; [by apply respects_sleep|intros _].
  by apply respects_async_service_call.
Qed.

Lemma gps_leg_never_searches_witness :
  let s := set_script Scenario.plain_leg
             (set_wps Scenario.table Scenario.idle) in
  is_gps_leg "gps1" = true
  ∧ ∃ evs, trace (exec_leg Scenario.planners 8 "gps1" s).2 = trace s ++ evs
           ∧ forallb (λ e, negb (is_search_event e)) evs = true.
Proof.
  split; [reflexivity|].
  apply (gps_leg_never_searches Scenario.planners 8 "gps1"). reflexivity.
Defined.

(* ===================================================================== *)
(** ** The found-pose store *)
(* ===================================================================== *)

Lemma aruco_callback_other markers s k :
  k ≠ leg s → found_poses (aruco_callback markers s) !! k = found_poses s !! k.
Proof.
  intros Hk. unfold aruco_callback. case_bool_decide as Hleg; [|done].
  clear Hleg. revert s Hk.
  induction markers as [|mk markers IH]; intros s Hk; [done|].
  cbn [foldl]. destruct (tags !! leg s) as [tag|]; [|by apply IH].
  case_bool_decide; [|by apply IH].
  destruct (pose_to_geopose _ s) as [pose|]; [|by apply IH].
  rewrite IH by done. cbn [found_poses set_found_poses].
  by rewrite lookup_insert_ne.
Qed.

Lemma obj_callback_other objects s k :
  k ≠ leg s → found_poses (obj_callback objects s) !! k = found_poses s !! k.
Proof.
  intros Hk. unfold obj_callback. case_bool_decide as Hleg; [|done].
  clear Hleg. revert s Hk.
  induction objects as [|obj objects IH]; intros s Hk; [done|].
  cbn [foldl]. destruct (str_in _ _); [|by apply IH].
  destruct (pose_to_geopose _ s) as [pose|]; [|by apply IH].
  rewrite IH by done. cbn [found_poses set_found_poses].
  by rewrite lookup_insert_ne.
Qed.

Lemma run_callback_other cb s k :
  k ≠ leg s → found_poses (run_callback cb s) !! k = found_poses s !! k.
Proof.
  intros Hk. destruct cb; cbn [run_callback]; [done| | |done].
  - by apply aruco_callback_other.
  - by apply obj_callback_other.
Qed.

Lemma deliver_other cbs s k :
  k ≠ leg s → found_poses (deliver cbs s) !! k = found_poses s !! k.
Proof.
  unfold deliver. revert s. induction cbs as [|cb cbs IH]; intros s Hk; [done|].
  cbn [foldl]. rewrite IH.
  - by apply run_callback_other.
  - by rewrite (run_callback_frame leg).
Qed.

(** [keeps_rel k]: as long as the current leg is not [k], it does not become
    [k] and the pose stored for [k] stays what it is. *)
Definition keeps_rel (k : string) (s s' : node) : Prop :=
  leg s ≠ k → leg s' ≠ k ∧ found_poses s' !! k = found_poses s !! k.

Section KeepsFrame.

Variable k : string.

Lemma keeps_rel_refl s : keeps_rel k s s.
Proof. by intros Hk. Qed.

Lemma keeps_rel_trans s1 s2 s3 :
  keeps_rel k s1 s2 → keeps_rel k s2 s3 → keeps_rel k s1 s3.
Proof.
  intros H12 H23 Hk. destruct (H12 Hk) as [Hk2 Hf2].
  destruct (H23 Hk2) as [Hk3 Hf3]. split; [done|]. by rewrite Hf3.
Qed.

Lemma keeps_rel_silent s s' :
  leg s' = leg s → found_poses s' = found_poses s → keeps_rel k s s'.
Proof. intros Hl Hf Hk. by rewrite Hl, Hf. Qed.

Lemma keeps_rel_block t rest s :
  script s = t :: rest →
  keeps_rel k s (deliver (callbacks t) (set_script rest s)).
Proof.
  intros _ Hk. rewrite deliver_leg. split; [done|].
  by rewrite deliver_other.
Qed.

Lemma keeps_rel_set_leg l s : l ≠ k → keeps_rel k s (set_leg l s).
Proof. by intros Hl Hk. Qed.

End KeepsFrame.

#[global] Instance keeps_frame k : Frame (keeps_rel k) :=
  Build_Frame (keeps_rel k) any_event
    (keeps_rel_refl k) (keeps_rel_trans k)
    (λ e s _, keeps_rel_silent k s _ eq_refl eq_refl)
    (keeps_rel_block k)
    (λ v s, keeps_rel_silent k s _ eq_refl eq_refl)
    (λ v s, keeps_rel_silent k s _ eq_refl eq_refl)
    (λ v s, keeps_rel_silent k s _ eq_refl eq_refl)
    (λ v s, keeps_rel_silent k s _ eq_refl eq_refl)
    (λ v s, keeps_rel_silent k s _ eq_refl eq_refl).

(** A leg starts by naming itself the current leg, whatever the leg before. *)
Lemma exec_leg_set_leg cfg fuel l s :
  exec_leg cfg fuel l s = exec_leg cfg fuel l (set_leg l s).
Proof. unfold exec_leg. by rewrite !(bind_unfold (modify _)). Qed.

Lemma exec_leg_keeps cfg fuel l k s :
  k ≠ l → found_poses (exec_leg cfg fuel l s).2 !! k = found_poses s !! k.
Proof.
  intros Hk. rewrite exec_leg_set_leg.
  assert (respects (keeps_rel k) (exec_leg cfg fuel l)) as Hleg.
  { apply (respects_exec_leg cfg); try done. }
  destruct (Hleg (set_leg l s)) as [_ Hf]; [by cbn|]. by rewrite Hf.
Qed.

(** C9. The found-pose store is written only under the label of the current
    leg: a callback leaves every other entry as it is; an aruco message is
    dropped whole when the current leg is no aruco leg or none of its markers
    has the tag of the current leg, an objects message when the current leg is
    no object leg or none of its labels occurs in the leg name; and from the
    start to the end of a leg, however it ends, only the entry of that leg can
    have changed, so that [found_check] (which reads the entry of the current
    leg) never returns a pose stored under another leg. *)
Theorem found_poses_written_for_current_leg_only :
  (∀ cb s k, k ≠ leg s →
     found_poses (run_callback cb s) !! k = found_poses s !! k)
  ∧ (∀ markers s,
       leg s ∉ aruco_legs
       ∨ (∀ mk, mk ∈ markers → tags !! leg s ≠ Some (marker_id mk)) →
       aruco_callback markers s = s)
  ∧ (∀ objects s,
       leg s ∉ obj_legs
       ∨ (∀ obj, obj ∈ objects → str_in (label obj) (leg s) = false) →
       obj_callback objects s = s)
  ∧ (∀ cfg fuel l k s, k ≠ l →
       found_poses (exec_leg cfg fuel l s).2 !! k = found_poses s !! k)
  ∧ (∀ s pose s', found_check s = (Ret (Some pose), s') →
       s' = s ∧ found_poses s !! leg s = Some (Some pose)).
Proof.
  split; [|split; [|split; [|split]]].
  - intros cb s k Hk. by apply run_callback_other.
  - intros markers s Hno. unfold aruco_callback.
    case_bool_decide as Hleg; [|done].
    destruct Hno as [Hno|Hno]; [done|].
    induction markers as [|mk markers IH]; [done|]. cbn [foldl].
    destruct (tags !! leg s) as [tag|] eqn:Htag.
    + case_bool_decide as Hid.
      * exfalso. refine (Hno mk _ _); [by left|by rewrite Hid].
      * apply IH. intros mk' Hmk'. apply Hno. by right.
    + apply IH. intros mk' Hmk'. apply Hno. by right.
  - intros objects s Hno. unfold obj_callback.
    case_bool_decide as Hleg; [|done].
    destruct Hno as [Hno|Hno]; [done|].
    induction objects as [|obj objects IH]; [done|]. cbn [foldl].
    rewrite (Hno obj) by (by left).
    apply IH. intros obj' Hobj'. apply Hno. by right.
  - intros. by apply exec_leg_keeps.
  - intros s pose s'. unfold found_check. mstep.
    destruct (_ || _); [|done]. mstep.
    destruct (found_poses s !! leg s) as [[pose'|]|]; try done.
    by intros [= -> ->].
Qed.

(* ===================================================================== *)
(** ** Object labels *)
(* ===================================================================== *)

(** [x] occurs within [s], in the words of the claim. *)
Definition occurs_in (x s : string) : Prop :=
  ∃ pre post, s = pre +:+ x +:+ post.

Lemma string_app_cons c a b : String c a +:+ b = String c (a +:+ b).
Proof. reflexivity. Qed.

Lemma string_app_nil b : ""%string +:+ b = b.
Proof. reflexivity. Qed.

Lemma prefix_iff x s : String.prefix x s = true ↔ ∃ post, s = x +:+ post.
Proof.
  revert s. induction x as [|c x IH]; intros s.
  - split; [intros _; by exists s|by destruct s].
  - destruct s as [|c' s]; cbn [String.prefix].
    + split; [done|]. intros [post Hpost].
      by rewrite string_app_cons in Hpost.
    + destruct (Ascii.ascii_dec c c') as [->|Hc].
      * rewrite IH. split; intros [post Hpost]; exists post.
        -- by rewrite string_app_cons, Hpost.
        -- rewrite string_app_cons in Hpost. by injection Hpost.
      * split; [done|]. intros [post Hpost].
        rewrite string_app_cons in Hpost.
        injection Hpost as Hcc _. exfalso. apply Hc. by rewrite Hcc.
Qed.

Lemma str_in_iff x s : str_in x s = true ↔ occurs_in x s.
Proof.
  unfold occurs_in. induction s as [|c s IH]; cbn [str_in].
  - rewrite orb_false_r, prefix_iff. split.
    + intros [post Hpost]. by exists ""%string, post.
    + intros ([|c pre] & post & Hs); [by exists post|].
      by rewrite string_app_cons in Hs.
  - rewrite orb_true_iff, prefix_iff, IH. split.
    + intros [[post Hpost]|(pre & post & Hs)].
      * by exists ""%string, post.
      * exists (String c pre), post. by rewrite string_app_cons, Hs.
    + intros ([|c' pre] & post & Hs).
      * left. by exists post.
      * right. exists pre, post. rewrite string_app_cons in Hs.
        by injection Hs.
Qed.

Lemma string_app_length a b :
  String.length (a +:+ b) = String.length a + String.length b.
Proof.
  induction a as [|c a IH]; [done|].
  rewrite string_app_cons. cbn [String.length]. by rewrite IH.
Qed.

Lemma occurs_in_length x s : occurs_in x s → String.length x ≤ String.length s.
Proof.
  intros (pre & post & ->). rewrite !string_app_length. lia.
Qed.

(** The leg name followed by anything does not occur in the leg name. *)
Lemma str_in_longer l suffix :
  suffix ≠ ""%string → str_in (l +:+ suffix) l = false.
Proof.
  intros Hsuffix. apply not_true_is_false. intros H%str_in_iff.
  apply occurs_in_length in H. rewrite string_app_length in H.
  destruct suffix; [done|]. cbn in H. lia.
Qed.

Lemma obj_callback_changes objects s :
  obj_callback objects s ≠ s →
  ∃ obj, obj ∈ objects ∧ occurs_in (label obj) (leg s).
Proof.
  unfold obj_callback. case_bool_decide as Hleg; [|done]. clear Hleg.
  assert (∀ s0, leg s0 = leg s →
            foldl (λ s obj,
              if str_in (label obj) (leg s) then
                match pose_to_geopose (object_geo obj) s with
                | Some pose =>
                    set_found_poses (<[leg s := Some pose]> (found_poses s)) s
                | None => s
                end
              else s) s0 objects ≠ s0 →
            ∃ obj, obj ∈ objects ∧ occurs_in (label obj) (leg s)) as Hgen;
    [|by apply Hgen].
  induction objects as [|obj objects IH]; intros s0 Hs0; [done|].
  cbn [foldl]. rewrite Hs0.
  destruct (str_in (label obj) (leg s)) eqn:Hin.
  - intros _. exists obj. split; [by left|]. by apply str_in_iff.
  - intros (obj' & Hobj' & Hocc)%IH; [|done]. exists obj'. split; [by right|done].
Qed.

(** C10. On an object leg a detected object is accepted exactly when its
    label occurs within the name of the current leg: the pose of an object
    whose label occurs is stored under the leg (when the conversion gives
    one), an object whose label does not occur changes nothing, a message
    changes the node only if one of its labels occurs, and a label that is the
    leg name followed by more never matches. *)
Theorem object_label_accepted_iff_substring obj s :
  leg s ∈ obj_legs →
  (occurs_in (label obj) (leg s) →
   ∀ pose, pose_to_geopose (object_geo obj) s = Some pose →
     obj_callback [obj] s
     = set_found_poses (<[leg s := Some pose]> (found_poses s)) s)
  ∧ (¬ occurs_in (label obj) (leg s) → obj_callback [obj] s = s)
  ∧ (∀ objects, obj_callback objects s ≠ s →
       ∃ obj', obj' ∈ objects ∧ occurs_in (label obj') (leg s))
  ∧ (∀ suffix, suffix ≠ ""%string → label obj = leg s +:+ suffix →
       obj_callback [obj] s = s).
Proof.
  intros Hleg. unfold obj_callback. rewrite bool_decide_eq_true_2 by done.
  cbn [foldl]. split; [|split; [|split]].
  - intros Hocc%str_in_iff pose Hpose. by rewrite Hocc, Hpose.
  - intros Hocc. destruct (str_in _ _) eqn:Hin; [|done].
    by apply str_in_iff in Hin.
  - intros objects Hch. apply obj_callback_changes. unfold obj_callback.
    by rewrite bool_decide_eq_true_2.
  - intros suffix Hsuffix ->. by rewrite str_in_longer.
Qed.

Module ScenarioObject.

(** The node while the mallet leg runs, and an object labelled "mall". *)
Definition on_mallet : node := set_leg "mallet" Scenario.idle.
Definition mall : object := mkObject "mall" (Some (40.0021, -111.0021)%float).

End ScenarioObject.

Lemma object_label_accepted_iff_substring_witness :
  let obj := ScenarioObject.mall in
  let s := ScenarioObject.on_mallet in
  leg s ∈ obj_legs
  ∧ str_in (label obj) (leg s) = true
  ∧ label obj ≠ leg s
  ∧ (occurs_in (label obj) (leg s) →
     ∀ pose, pose_to_geopose (object_geo obj) s = Some pose →
       obj_callback [obj] s
       = set_found_poses (<[leg s := Some pose]> (found_poses s)) s)
    ∧ (¬ occurs_in (label obj) (leg s) → obj_callback [obj] s = s)
    ∧ (∀ objects, obj_callback objects s ≠ s →
         ∃ obj', obj' ∈ objects ∧ occurs_in (label obj') (leg s))
    ∧ (∀ suffix, suffix ≠ ""%string → label obj = leg s +:+ suffix →
         obj_callback [obj] s = s).
Proof.
  split; [|split; [reflexivity|split; [discriminate|]]].
  - cbn. apply list_elem_of_here.
  - apply (object_label_accepted_iff_substring ScenarioObject.mall
             ScenarioObject.on_mallet).
    cbn. apply list_elem_of_here.
Defined.

(* ===================================================================== *)
(** ** Legs that end in an error *)
(* ===================================================================== *)

Definition is_auto (e : event) : bool :=
  match e with EvTrigger Auto => true | _ => false end.
Definition is_arrival (e : event) : bool :=
  match e with EvTrigger Arrival => true | _ => false end.

(** The error lines of a trace, with the leg they were written under. *)
Definition error_lines (evs : list event) : list (string * string) :=
  omap (λ e, match e with
             | EvFeedback Error l body => Some (l, body)
             | _ => None
             end) evs.

(** The node after [exec_leg] named the leg and announced it. *)
Definition leg_started (l : string) (s : node) : node :=
  set_trace (trace s ++ [EvFeedback Info l
                           ("Starting " +:+ print_string_of l +:+ " leg")])
    (set_leg l s).

(** The node after a line of feedback. *)
Definition with_feedback (lvl : level) (body : string) (s : node) : node :=
  set_trace (trace s ++ [EvFeedback lvl (leg s) body]) s.

Lemma task_feedback_run lvl body s :
  task_feedback lvl body s = (Ret tt, with_feedback lvl body s).
Proof. reflexivity. Qed.

Lemma exec_leg_invalid cfg fuel l s :
  is_gps_leg l || is_aruco_leg l || is_obj_leg l = false →
  exec_leg cfg fuel l s
  = (Ret tt, with_feedback Error ("Invalid leg type provided:" +:+ l)
               (set_leg l s)).
Proof. intros Hl. unfold exec_leg. mstep. by rewrite Hl. Qed.

Lemma exec_leg_no_waypoint cfg fuel l s :
  is_gps_leg l || is_aruco_leg l || is_obj_leg l = true →
  find_wp l (wps s) = None →
  exec_leg cfg fuel l s
  = (Ret tt, with_feedback Error "No GPS waypoint found for leg"
               (leg_started l s)).
Proof.
  intros Hl Hwp. unfold exec_leg. mstep. rewrite Hl.
  unfold task_info. rewrite bind_unfold, task_feedback_run. mstep.
  cbn [wps with_feedback set_trace set_leg]. by rewrite Hwp.
Qed.

Lemma exec_leg_not_found cfg fuel l s leg_wp found s1 s2 :
  is_aruco_leg l || is_obj_leg l = true →
  find_wp l (wps s) = Some leg_wp →
  gps_nav cfg fuel leg_wp "" false (leg_started l s) = (Ret found, s1) →
  search_target cfg fuel found s1 = (Ret None, s2) →
  exec_leg cfg fuel l s
  = (Ret tt, with_feedback Error ("Could not find the " +:+ print_string_of l)
               s2).
Proof.
  intros Hl Hwp Hnav Hsearch. unfold exec_leg. mstep.
  assert (is_gps_leg l || is_aruco_leg l || is_obj_leg l = true) as ->.
  { rewrite <- orb_assoc, Hl. apply orb_true_r. }
  unfold task_info. rewrite bind_unfold, task_feedback_run. mstep.
  cbn [wps with_feedback set_trace set_leg]. rewrite Hwp.
  rewrite bind_unfold.
  change (with_feedback Info _ (set_leg l s)) with (leg_started l s).
  rewrite Hnav, Hl, bind_unfold, Hsearch. apply task_feedback_run.
Qed.

(** C1 (amended). A leg of an invalid type, a leg without a waypoint and a
    target leg whose searches all come back empty end with an error line and
    return to the loop over the legs, which goes on with the legs that follow:
    none of the three aborts the mission. *)
Theorem leg_errors_end_only_the_leg cfg fuel l ls s :
  (is_gps_leg l || is_aruco_leg l || is_obj_leg l = false →
   exec_legs cfg fuel (l :: ls) s
   = exec_legs cfg fuel ls
       (with_feedback Error ("Invalid leg type provided:" +:+ l) (set_leg l s)))
  ∧ (is_gps_leg l || is_aruco_leg l || is_obj_leg l = true →
     find_wp l (wps s) = None →
     exec_legs cfg fuel (l :: ls) s
     = exec_legs cfg fuel ls
         (with_feedback Error "No GPS waypoint found for leg" (leg_started l s)))
  ∧ (∀ leg_wp found s1 s2,
       is_aruco_leg l || is_obj_leg l = true →
       find_wp l (wps s) = Some leg_wp →
       gps_nav cfg fuel leg_wp "" false (leg_started l s) = (Ret found, s1) →
       search_target cfg fuel found s1 = (Ret None, s2) →
       exec_legs cfg fuel (l :: ls) s
       = exec_legs cfg fuel ls
           (with_feedback Error ("Could not find the " +:+ print_string_of l)
              s2)).
Proof.
  split; [|split].
  - intros Hl. cbn [exec_legs]. by rewrite bind_unfold, exec_leg_invalid.
  - intros Hl Hwp. cbn [exec_legs].
    by rewrite bind_unfold, exec_leg_no_waypoint.
  - intros leg_wp found s1 s2 Hl Hwp Hnav Hsearch. cbn [exec_legs].
    by rewrite bind_unfold, (exec_leg_not_found _ _ _ _ leg_wp found s1 s2).
Qed.

Module ScenarioMissing.

(** A waypoint file without an entry for gps1. *)
Definition table : list waypoint :=
  [ mkWaypoint "gps2" 40.003 (-111.003);
    mkWaypoint "aruco1" 40.002 (-111.002) ]%float.

(** The mission: the first leg ends at once, the second takes its ticks. *)
Definition world : list tick :=
  Scenario.start ++ Scenario.plain_leg ++ [Scenario.quiet].

End ScenarioMissing.

(** C1, as stated, fails on a mission whose first leg has no waypoint: the
    leg ends with its error line, the next leg is navigated and signalled, and
    the mission succeeds. *)
Lemma failed_leg_does_not_abort_mission :
  let r := run_mission Scenario.planners ["gps1"; "gps2"]%string
             ScenarioMissing.table ScenarioMissing.world Scenario.idle in
  let evs := new_events Scenario.idle r.2 in
  r.1 = Ret msg_succeeded
  ∧ error_lines evs = [("gps1", "No GPS waypoint found for leg")]%string
  ∧ motions evs = [Follow 0]
  ∧ mode_switches evs = [Auto; Arrival; Auto; Teleop]
  ∧ goal_transitions evs = [Succeed].
Proof. vm_compute. done. Qed.

Lemma leg_errors_end_only_the_leg_witness :
  let cfg := Scenario.planners in
  let s := set_script ScenarioMissing.world
             (set_wps ScenarioMissing.table Scenario.idle) in
  let l := "gps1"%string in
  let ls := ["gps2"%string] in
  (is_gps_leg l || is_aruco_leg l || is_obj_leg l = true
   ∧ find_wp l (wps s) = None)
  ∧ (is_gps_leg l || is_aruco_leg l || is_obj_leg l = false →
     exec_legs cfg 12 (l :: ls) s
     = exec_legs cfg 12 ls
         (with_feedback Error ("Invalid leg type provided:" +:+ l)
            (set_leg l s)))
    ∧ (is_gps_leg l || is_aruco_leg l || is_obj_leg l = true →
       find_wp l (wps s) = None →
       exec_legs cfg 12 (l :: ls) s
       = exec_legs cfg 12 ls
           (with_feedback Error "No GPS waypoint found for leg"
              (leg_started l s)))
    ∧ (∀ leg_wp found s1 s2,
         is_aruco_leg l || is_obj_leg l = true →
         find_wp l (wps s) = Some leg_wp →
         gps_nav cfg 12 leg_wp "" false (leg_started l s) = (Ret found, s1) →
         search_target cfg 12 found s1 = (Ret None, s2) →
         exec_legs cfg 12 (l :: ls) s
         = exec_legs cfg 12 ls
             (with_feedback Error
                ("Could not find the " +:+ print_string_of l) s2)).
Proof.
  split; [split; reflexivity|].
  apply (leg_errors_end_only_the_leg Scenario.planners 12 "gps1"
           ["gps2"%string]).
Defined.

(* ===================================================================== *)
(** ** The two-leg mission *)
(* ===================================================================== *)

(** C5 (amended). The mission over gps1 and aruco1 of the spec, with the
    legs left in order, gps1 navigated plainly, aruco1 seen by the spin search
    and reached by one convergence navigation: it succeeds, with two arrival
    switches, three autonomy switches (one when the mission starts and one
    after the wait of each leg) and the teleop switch last; four motion goals
    are sent and the spin is the only one canceled. *)
Theorem two_leg_mission_mode_switches :
  let r := run_mission Scenario.planners ["gps1"; "aruco1"]%string
             Scenario.table Scenario.two_legs Scenario.idle in
  let evs := new_events Scenario.idle r.2 in
  r.1 = Ret msg_succeeded
  ∧ goal_transitions evs = [Succeed]
  ∧ mode_switches evs = [Auto; Arrival; Auto; Arrival; Auto; Teleop]
  ∧ length (filter (λ e, is_arrival e = true) evs) = 2
  ∧ length (filter (λ e, is_auto e = true) evs) = 3
  ∧ length (filter (λ e, is_teleop e = true) evs) = 1
  ∧ motions evs = [Follow 0; Follow 1; Spin 2; CancelGoal 2; Follow 3]
  ∧ script r.2 = [].
Proof. vm_compute. done. Qed.

(** C5, as stated, fails on its own scenario: the autonomy switch is
    triggered three times, not twice. *)
Lemma two_leg_mission_three_autonomy_switches :
  let r := run_mission Scenario.planners ["gps1"; "aruco1"]%string
             Scenario.table Scenario.two_legs Scenario.idle in
  r.1 = Ret msg_succeeded
  ∧ length (filter (λ e, is_auto e = true) (new_events Scenario.idle r.2)) ≠ 2.
Proof. vm_compute. split; [done|lia]. Qed.

(* ===================================================================== *)
(** ** The hex search *)
(* ===================================================================== *)

Section HexSearch.

Variable cfg : config.

(** One turn of the loop of [hex_search]: navigate to the vertex, looking on
    the way, then spin there. *)
Definition hex_visit (fuel : nat) (base : GeoPose) (i : nat)
    (coord : float * float) : M (option GeoPose) :=
  found ← gps_nav cfg fuel (hex_wp base coord)
            (" (hex " +:+ str_nat i +:+ ")") false;
  match found with
  | Some pose => mret (Some pose)
  | None => spin_search fuel (" (hex " +:+ str_nat i +:+ ")")
  end.

(** The node after the vertices [coords], numbered from [i], were all visited
    without a detection; [None] when a visit ended otherwise. *)
Fixpoint visits_missed (fuel : nat) (base : GeoPose) (i : nat)
    (coords : list (float * float)) (s : node) : option node :=
  match coords with
  | [] => Some s
  | coord :: coords =>
      match hex_visit fuel base i coord s with
      | (Ret None, s1) => visits_missed fuel base (S i) coords s1
      | _ => None
      end
  end.

Lemma hex_search_loop_cons fuel base i coord coords s :
  hex_search_loop cfg fuel (Some base) i (coord :: coords) s
  = match hex_visit fuel base i coord s with
    | (Ret (Some pose), s1) => (Ret (Some pose), s1)
    | (Ret None, s1) => hex_search_loop cfg fuel (Some base) (S i) coords s1
    | (Raise e, s1) => (Raise e, s1)
    | (Blocked, s1) => (Blocked, s1)
    | (OutOfFuel, s1) => (OutOfFuel, s1)
    end.
Proof.
  cbn [hex_search_loop]. unfold hex_visit. rewrite !bind_unfold.
  destruct (gps_nav _ _ _ _ _ s) as [[[pose|]| | |] s1]; try done.
  rewrite bind_unfold.
  by destruct (spin_search _ _ s1) as [[[pose|]| | |] s2].
Qed.

(** The loop from index [i] on: a detection comes from the visit of one
    vertex, reached after the visits of the vertices before it all missed, and
    the node is the one that visit left; without a detection all visits
    missed. *)
Lemma hex_search_loop_found fuel base i coords s pose s' :
  hex_search_loop cfg fuel (Some base) i coords s = (Ret (Some pose), s') →
  ∃ k coord s_k,
    coords !! k = Some coord
    ∧ visits_missed fuel base i (take k coords) s = Some s_k
    ∧ hex_visit fuel base (i + k) coord s_k = (Ret (Some pose), s').
Proof.
  revert i s. induction coords as [|c coords IH]; intros i s.
  - cbn [hex_search_loop]. unfold task_info.
    by rewrite bind_unfold, task_feedback_run.
  - rewrite hex_search_loop_cons.
    destruct (hex_visit fuel base i c s) as [[[pose'|]| | |] s1] eqn:Hv;
      try done.
    + intros [= -> ->]. exists 0, c, s. rewrite Nat.add_0_r. by cbn.
    + intros (k & coord & s_k & Hk & Hm & Hlast)%IH.
      exists (S k), coord, s_k. split; [done|]. split.
      * cbn. by rewrite Hv.
      * by rewrite <- Nat.add_succ_comm.
Qed.

Lemma hex_search_loop_missed fuel base i coords s s' :
  hex_search_loop cfg fuel (Some base) i coords s = (Ret None, s') →
  ∃ s_n, visits_missed fuel base i coords s = Some s_n
         ∧ s' = with_feedback Info "Hex search completed" s_n.
Proof.
  revert i s. induction coords as [|c coords IH]; intros i s.
  - cbn [hex_search_loop]. unfold task_info.
    rewrite bind_unfold, task_feedback_run. intros [= <-]. by exists s.
  - rewrite hex_search_loop_cons. cbn [visits_missed].
    destruct (hex_visit fuel base i c s) as [[[pose'|]| | |] s1] eqn:Hv;
      try done.
    apply IH.
Qed.

Lemma hex_search_run fuel s :
  hex_search cfg fuel s
  = hex_search_loop cfg fuel (find_wp (leg s) (wps s)) 0 hex_coord
      (with_feedback Info "Starting hex search" s).
Proof. reflexivity. Qed.

End HexSearch.

(** C7. The hex search goes through the six offsets of [hex_coord] in their
    order, each scaled by [hex_scalar] and added to the waypoint of the leg;
    at each vertex it navigates there, looking for the target on the way, and
    then spins. A detection is the result of the visit of one vertex [k]
    (navigation or spin), reached after the visits of the vertices before it
    found nothing, and the search returns in the very state that visit left:
    no later vertex is visited. Without a detection all six were visited. *)
Theorem hex_search_stops_at_first_detection cfg fuel base s :
  find_wp (leg s) (wps s) = Some base →
  length hex_coord = 6
  ∧ (∀ pose s',
       hex_search cfg fuel s = (Ret (Some pose), s') →
       ∃ k coord s_k,
         k < 6 ∧ hex_coord !! k = Some coord
         ∧ visits_missed cfg fuel base 0 (take k hex_coord)
             (with_feedback Info "Starting hex search" s) = Some s_k
         ∧ (found ← gps_nav cfg fuel
                      (latLonYaw2Geopose
                         (latitude base + coord.1 * hex_scalar)
                         (longitude base + coord.2 * hex_scalar))
                      (" (hex " +:+ str_nat k +:+ ")") false;
            match found with
            | Some pose => mret (Some pose)
            | None => spin_search fuel (" (hex " +:+ str_nat k +:+ ")")
            end) s_k = (Ret (Some pose), s'))
  ∧ (∀ s',
       hex_search cfg fuel s = (Ret None, s') →
       ∃ s_6, visits_missed cfg fuel base 0 hex_coord
                (with_feedback Info "Starting hex search" s) = Some s_6
              ∧ s' = with_feedback Info "Hex search completed" s_6).
Proof.
  intros Hbase. split; [done|]. rewrite hex_search_run, Hbase. split.
  - intros pose s' (k & coord & s_k & Hk & Hm & Hlast)%hex_search_loop_found.
    exists k, coord, s_k. split; [|done].
    apply lookup_lt_Some in Hk. exact Hk.
  - intros s'. apply hex_search_loop_missed.
Qed.

Module ScenarioHex.

(** The node on the aruco1 leg, when neither the navigation to the waypoint
    nor the spin there has seen the marker. *)
Definition searching (world : list tick) : node :=
  set_script world
    (set_leg "aruco1" (set_wps Scenario.table
       (set_found_poses no_found_poses Scenario.idle))).

(** A vertex where nothing is seen: goal, poll; spin goal, poll. *)
Definition miss : list tick :=
  [Scenario.quiet; Scenario.done_; Scenario.quiet; Scenario.done_].

(** The marker is seen in the first turn of the spin at the third vertex. *)
Definition found_at_third : list tick :=
  miss ++ miss
  ++ [Scenario.quiet; Scenario.done_;
      Scenario.quiet; Scenario.quiet; Scenario.seen; Scenario.quiet].

(** Nothing is seen at any vertex. *)
Definition all_missed : list tick :=
  miss ++ miss ++ miss ++ miss ++ miss ++ miss.

Definition base : GeoPose := latLonYaw2Geopose 40.002 (-111.002).

End ScenarioHex.

Lemma hex_search_stops_at_first_detection_witness :
  let cfg := Scenario.planners in
  let s := ScenarioHex.searching ScenarioHex.found_at_third in
  let base := ScenarioHex.base in
  find_wp (leg s) (wps s) = Some base
  ∧ length hex_coord = 6
    ∧ (∀ pose s',
         hex_search cfg 30 s = (Ret (Some pose), s') →
         ∃ k coord s_k,
           k < 6 ∧ hex_coord !! k = Some coord
           ∧ visits_missed cfg 30 base 0 (take k hex_coord)
               (with_feedback Info "Starting hex search" s) = Some s_k
           ∧ (found ← gps_nav cfg 30
                        (latLonYaw2Geopose
                           (latitude base + coord.1 * hex_scalar)
                           (longitude base + coord.2 * hex_scalar))
                        (" (hex " +:+ str_nat k +:+ ")") false;
              match found with
              | Some pose => mret (Some pose)
              | None => spin_search 30 (" (hex " +:+ str_nat k +:+ ")")
              end) s_k = (Ret (Some pose), s'))
    ∧ (∀ s',
         hex_search cfg 30 s = (Ret None, s') →
         ∃ s_6, visits_missed cfg 30 base 0 hex_coord
                  (with_feedback Info "Starting hex search" s) = Some s_6
                ∧ s' = with_feedback Info "Hex search completed" s_6).
Proof.
  split; [reflexivity|].
  apply (hex_search_stops_at_first_detection Scenario.planners 30
           ScenarioHex.base (ScenarioHex.searching ScenarioHex.found_at_third)).
  reflexivity.
Defined.

(** The scenario of the claim: with the detection at the third vertex the
    search sends three navigation goals and three spins, cancels the last
    spin, and writes no line for a fourth vertex. *)
Example hex_search_found_at_third_vertex :
  let s := ScenarioHex.searching ScenarioHex.found_at_third in
  let r := hex_search Scenario.planners 30 s in
  r.1 = Ret (Some (latLonYaw2Geopose 40.00202 (-111.002)))
  ∧ motions (new_events s r.2)
    = [Follow 0; Spin 1; Follow 2; Spin 3; Follow 4; Spin 5; CancelGoal 5]
  ∧ map (λ f, f.2) (feedback (new_events s r.2))
    = ["Starting hex search";
       "Starting GPS navigation (hex 0)"; "GPS navigation completed (hex 0)";
       "Starting spin search (hex 0)"; "Spin search completed (hex 0)";
       "Starting GPS navigation (hex 1)"; "GPS navigation completed (hex 1)";
       "Starting spin search (hex 1)"; "Spin search completed (hex 1)";
       "Starting GPS navigation (hex 2)"; "GPS navigation completed (hex 2)";
       "Starting spin search (hex 2)"]%string.
Proof. vm_compute. done. Qed.

(** A sweep that sees nothing visits the six vertices and returns without a
    pose. *)
Example hex_search_all_missed :
  let s := ScenarioHex.searching ScenarioHex.all_missed in
  let r := hex_search Scenario.planners 30 s in
  r.1 = Ret None
  ∧ length (filter (λ e, is_motion_goal e = true) (new_events s r.2)) = 12
  ∧ script r.2 = [].
Proof. vm_compute. done. Qed.

(* ===================================================================== *)
(** ** The convergence loop *)
(* ===================================================================== *)

Lemma block_ret t s s1 :
  block s = (Ret t, s1) →
  ∃ rest, script s = t :: rest ∧ s1 = deliver (callbacks t) (set_script rest s).
Proof.
  unfold block. destruct (script s) as [|t' rest]; [done|].
  intros [= -> <-]. by exists rest.
Qed.

Lemma isTaskComplete_true s s1 :
  isTaskComplete s = (Ret true, s1) →
  trace s1 = trace s ∧ leg s1 = leg s ∧ goal_handle s1 = goal_handle s.
Proof.
  unfold isTaskComplete. mstep. destruct (result_future s); [|by intros [= <-]].
  intros (t & s2 & (rest & _ & ->)%block_ret & H)%bind_ret_inv.
  destruct (future_result t); [|done]. revert H. mstep. intros [= <-].
  cbn. by rewrite deliver_trace, deliver_leg, deliver_goal_handle.
Qed.

Lemma isTaskComplete_false s s1 :
  isTaskComplete s = (Ret false, s1) →
  trace s1 = trace s ∧ leg s1 = leg s ∧ goal_handle s1 = goal_handle s
  ∧ result_future s1 = result_future s ∧ is_Some (result_future s).
Proof.
  unfold isTaskComplete. mstep. destruct (result_future s) eqn:Hfut; [|done].
  intros (t & s2 & (rest & _ & ->)%block_ret & H)%bind_ret_inv.
  destruct (future_result t); [revert H; by mstep|]. injection H as <-.
  rewrite deliver_trace, deliver_leg, deliver_goal_handle,
    deliver_result_future. cbn. by rewrite Hfut.
Qed.

Lemma sleep_ret d s u s1 :
  sleep d s = (Ret u, s1) →
  trace s1 = trace s ++ [EvSleep d] ∧ leg s1 = leg s
  ∧ goal_handle s1 = goal_handle s ∧ result_future s1 = result_future s.
Proof.
  unfold sleep. mstep.
  intros (t & s2 & (rest & _ & ->)%block_ret & [= _ <-])%bind_ret_inv.
  by rewrite deliver_trace, deliver_leg, deliver_goal_handle,
    deliver_result_future.
Qed.

Lemma check_cancel_ret s u s1 : check_cancel s = (Ret u, s1) → s1 = s.
Proof.
  unfold check_cancel. mstep. destruct (is_cancel_requested s);
    [|by intros [= <-]].
  rewrite bind_unfold. by destruct (cancelTask s) as [[[]| | |] ?].
Qed.

Lemma found_check_ret s r s1 :
  found_check s = (Ret r, s1) →
  s1 = s ∧ ∀ pose, r = Some pose → found_poses s !! leg s = Some (Some pose).
Proof.
  unfold found_check. mstep. destruct (_ || _); [|by intros [= <- <-]].
  mstep. destruct (found_poses s !! leg s) as [[pose|]|]; try done;
    intros [= <- <-]; split; try done. by intros ? [= ->].
Qed.

Lemma cancelTask_ret s u s1 id acc :
  is_Some (result_future s) → goal_handle s = Some (id, acc) →
  cancelTask s = (Ret u, s1) →
  trace s1 = trace s ++ [EvCancelGoal id] ∧ leg s1 = leg s.
Proof.
  intros [fut Hfut] Hh. unfold cancelTask. mstep. rewrite Hfut. mstep.
  rewrite Hh. mstep.
  intros (t & s2 & (rest & _ & ->)%block_ret & [= _ <-])%bind_ret_inv.
  by rewrite deliver_trace, deliver_leg.
Qed.

(** One attempt of the convergence loop, from the goal on: a pose comes back
    only if it is materially different from the destination, and then the
    goal was canceled once, after the line that says so; without a pose the
    loop asked for no cancellation and wrote no line. *)
Lemma gps_nav_loop_updating n dest_wp src_string s r s' id acc :
  goal_handle s = Some (id, acc) →
  gps_nav_loop n dest_wp src_string true s = (Ret r, s') →
  ∃ evs, trace s' = trace s ++ evs ∧ leg s' = leg s ∧
    match r with
    | Some pose =>
        materially_changed pose dest_wp = true
        ∧ motions evs = [CancelGoal id]
        ∧ feedback evs
          = [(Info, leg s, "Improved GPS location found" +:+ src_string)]
    | None => motions evs = [] ∧ feedback evs = []
    end.
Proof.
  revert s. induction n as [|n IH]; intros s Hh; cbn [gps_nav_loop].
  - intros (b & s1 & Hc & H)%bind_ret_inv. destruct b; [|done].
    injection H as <- <-. apply isTaskComplete_true in Hc as (Htr & Hl & _).
    exists []. by rewrite app_nil_r.
  - intros (b & s1 & Hc & H)%bind_ret_inv. destruct b.
    { injection H as <- <-. apply isTaskComplete_true in Hc as (Htr & Hl & _).
      exists []. by rewrite app_nil_r. }
    apply isTaskComplete_false in Hc as (Htr1 & Hl1 & Hh1 & Hf1 & Hfut).
    apply bind_ret_inv in H as (u & s2 & Hsl & H).
    apply sleep_ret in Hsl as (Htr2 & Hl2 & Hh2 & Hf2).
    apply bind_ret_inv in H as (u' & s3 & ->%check_cancel_ret & H).
    apply bind_ret_inv in H as (found & s4 & [-> _]%found_check_ret & H).
    destruct found as [pose|]; [|done].
    destruct (materially_changed pose dest_wp) eqn:Hchanged.
    + unfold task_info in H. rewrite bind_unfold, task_feedback_run in H.
      apply bind_ret_inv in H as (u3 & s5 & Hcancel & H).
      eapply cancelTask_ret in Hcancel as (Htr5 & Hl5);
        [|cbn; by rewrite Hf2, Hf1|cbn; by rewrite Hh2, Hh1, Hh].
      apply bind_ret_inv in H as (u4 & s6 & Hsl6 & [= <- <-]).
      apply sleep_ret in Hsl6 as (Htr6 & Hl6 & _).
      eexists. split.
      { rewrite Htr6, Htr5. cbn [trace with_feedback set_trace].
        rewrite Htr2, Htr1, <- !app_assoc. reflexivity. }
      split; [by rewrite Hl6, Hl5; cbn; rewrite Hl2, Hl1|].
      split; [done|]. cbn. by rewrite Hl2, Hl1.
    + apply IH in H as (evs & Htr & Hl & Hr);
        [|by rewrite Hh2, Hh1, Hh].
      exists (EvSleep 0.1 :: evs). split.
      { by rewrite Htr, Htr2, Htr1, <- app_assoc. }
      split; [by rewrite Hl, Hl2, Hl1|].
      destruct r; [|done]. by rewrite <- Hl1, <- Hl2.
Qed.

Lemma motions_app evs evs' : motions (evs ++ evs') = motions evs ++ motions evs'.
Proof. apply omap_app. Qed.

Lemma publish_path_run path dest_wp s :
  ∃ evs, publish_path path dest_wp s = (Ret tt, set_trace (trace s ++ evs) s)
         ∧ motions evs = [].
Proof.
  unfold publish_path. revert s.
  induction path as [|wp path IH]; intros s; cbn [foldr].
  - exists []. rewrite app_nil_r. by destruct s.
  - rewrite bind_unfold.
    destruct (negb (geopose_eqb wp dest_wp)); cbn [emit modify];
      (match goal with |- context [foldr _ _ _ ?x] =>
         destruct (IH x) as (evs & -> & Hm) end);
      eexists (_ :: evs); cbn [trace set_trace]; rewrite <- app_assoc;
      (split; [reflexivity|exact Hm]).
Qed.

Lemma send_goal_ret ev s b s1 :
  send_goal ev s = (Ret b, s1) →
  trace s1 = trace s ++ [ev (goals_sent s)]
  ∧ goal_handle s1 = Some (goals_sent s, b) ∧ leg s1 = leg s.
Proof.
  unfold send_goal. mstep. mstep. mstep.
  intros (t & s2 & (rest & _ & ->)%block_ret & H)%bind_ret_inv.
  revert H. mstep. destruct (accepted t) eqn:Hacc.
  - mstep. intros [= <- <-]. cbn. by rewrite deliver_trace, deliver_leg.
  - intros [= <- <-]. cbn. by rewrite deliver_trace, deliver_leg.
Qed.

Lemma report_result_ret what src_string s u s1 :
  report_result what src_string s = (Ret u, s1) →
  ∃ evs, trace s1 = trace s ++ evs ∧ motions evs = [].
Proof.
  unfold report_result, getResult. mstep. mstep.
  destruct (match status s with
            | Some STATUS_SUCCEEDED => SUCCEEDED
            | Some STATUS_ABORTED => FAILED
            | Some STATUS_CANCELED => CANCELED
            | _ => UNKNOWN
            end);
    unfold task_info, task_warn, task_error; try rewrite task_feedback_run;
    intros [= _ <-].
  - exists []. by rewrite app_nil_r.
  - by eexists [_].
  - by eexists [_].
  - by eexists [_].
Qed.

Section Convergence.

Variable cfg : config.

(** One navigation of the convergence loop: it sends its goal, and cancels
    it, once, exactly when it comes back with a pose, which is then materially
    different from the destination. *)
Lemma gps_nav_updating fuel dest_wp src_string s r s' :
  gps_nav cfg fuel dest_wp src_string true s = (Ret r, s') →
  ∃ evs, trace s' = trace s ++ evs ∧
    match r with
    | Some pose =>
        materially_changed pose dest_wp = true
        ∧ motions evs = [Follow (goals_sent s); CancelGoal (goals_sent s)]
    | None => motions evs = [Follow (goals_sent s)]
    end.
Proof.
  unfold gps_nav, task_info. rewrite bind_unfold, task_feedback_run. mstep.
  intros (path & s1 & Hpath & H)%bind_ret_inv.
  assert (s1 = with_feedback Info ("Starting GPS navigation" +:+ src_string) s)
    as ->.
  { revert Hpath. repeat case_match; by intros [= _ <-]. }
  clear Hpath.
  apply bind_ret_inv in H as (u & s2 & Hpub & H).
  match type of Hpub with publish_path ?p ?d ?x = _ =>
    destruct (publish_path_run p d x) as (evs1 & Hpub' & Hm1)
  end.
  rewrite Hpub' in Hpub. clear Hpub'. simplify_eq.
  apply bind_ret_inv in H as (b & s3 & Hsend & H).
  apply send_goal_ret in Hsend as (Htr3 & Hh3 & Hl3).
  cbn [goals_sent trace set_trace with_feedback] in Htr3, Hh3.
  apply bind_ret_inv in H as (found & s4 & Hloop & H).
  eapply gps_nav_loop_updating in Hloop as (evs4 & Htr4 & Hl4 & Hr);
    [|exact Hh3].
  destruct found as [pose|].
  - injection H as <- <-. destruct Hr as (Hchanged & Hm4 & _).
    eexists. split.
    { rewrite Htr4, Htr3, <- !app_assoc. reflexivity. }
    split; [done|]. by rewrite !motions_app, Hm1, Hm4.
  - apply bind_ret_inv in H as (u5 & s5 & Hrep & [= <- <-]).
    apply report_result_ret in Hrep as (evs5 & Htr5 & Hm5).
    destruct Hr as (Hm4 & _). eexists. split.
    { rewrite Htr5, Htr4, Htr3, <- !app_assoc. reflexivity. }
    by rewrite !motions_app, Hm1, Hm4, Hm5.
Qed.

(** The loop returns only after a navigation that came back without a
    pose. *)
Lemma converge_loop_returns fuel n found_loc print_string s s' :
  converge_loop cfg fuel n found_loc print_string s = (Ret tt, s') →
  ∃ last s1,
    gps_nav cfg fuel last (" (" +:+ print_string +:+ ")") true s1
    = (Ret None, s').
Proof.
  revert found_loc s. induction n as [|n IH]; intros found_loc s; [done|].
  cbn [converge_loop].
  intros ([pose|] & s1 & Hnav & H)%bind_ret_inv.
  - by apply IH in H.
  - injection H as <-. by exists found_loc, s.
Qed.

End Convergence.

(** The node after a blocking call took the tick [t], and after the two
    blocking calls of one turn of a polling loop (the bounded wait of
    [isTaskComplete], then the sleep). *)
Definition tick_taken (t : tick) (rest : list tick) (s : node) : node :=
  deliver (callbacks t) (set_script rest s).

Definition polled (t1 t2 : tick) (rest : list tick) (s : node) : node :=
  let s1 := tick_taken t1 (t2 :: rest) s in
  tick_taken t2 rest (set_trace (trace s1 ++ [EvSleep 0.1]) s1).

Lemma isTaskComplete_pending s fut t rest :
  result_future s = Some fut → script s = t :: rest → future_result t = None →
  isTaskComplete s = (Ret false, tick_taken t rest s).
Proof.
  intros Hfut Hsc Hnone. unfold isTaskComplete. mstep. rewrite Hfut.
  rewrite bind_unfold. unfold block. by rewrite Hsc, Hnone.
Qed.

Lemma sleep_run d s t rest :
  script s = t :: rest →
  sleep d s
  = (Ret tt, tick_taken t rest (set_trace (trace s ++ [EvSleep d]) s)).
Proof.
  intros Hsc. unfold sleep. mstep. rewrite bind_unfold. unfold block.
  cbn [script set_trace]. by rewrite Hsc.
Qed.

Lemma check_cancel_negative s :
  is_cancel_requested s = false → check_cancel s = (Ret tt, s).
Proof. intros Hc. unfold check_cancel. mstep. by rewrite Hc. Qed.

(** One turn of the polling loop of the convergence navigation, the task not
    complete and no cancel requested: with [pose] the tracked pose after the
    sleep, the navigation is canceled and [pose] returned when it is materially
    different from the destination, and polled on when it is not. *)
Lemma gps_nav_loop_turn n dest_wp src_string s fut t1 t2 rest pose :
  result_future s = Some fut →
  script s = t1 :: t2 :: rest →
  future_result t1 = None →
  is_cancel_requested (polled t1 t2 rest s) = false →
  found_check (polled t1 t2 rest s) = (Ret (Some pose), polled t1 t2 rest s) →
  gps_nav_loop (S n) dest_wp src_string true s
  = if materially_changed pose dest_wp
    then (task_info ("Improved GPS location found" +:+ src_string);;
          cancelTask;; sleep 0.5;; mret (Some pose)) (polled t1 t2 rest s)
    else gps_nav_loop n dest_wp src_string true (polled t1 t2 rest s).
Proof.
  intros Hfut Hsc Hnone Hcancel Hfound. cbn [gps_nav_loop].
  rewrite bind_unfold, (isTaskComplete_pending s fut t1 (t2 :: rest)) by done.
  rewrite bind_unfold, (sleep_run _ _ t2 rest)
    by (unfold tick_taken; by rewrite deliver_script).
  fold (polled t1 t2 rest s).
  rewrite bind_unfold, check_cancel_negative by done.
  rewrite bind_unfold, Hfound.
  by destruct (materially_changed pose dest_wp).
Qed.

(** C6. In the convergence loop a navigation is canceled and started again
    toward the tracked pose exactly when, at a turn of its polling loop, that
    pose differs from the destination by more than the threshold in latitude or
    in longitude; a navigation that returns a pose has canceled its goal once
    and the pose is materially different, one that returns none has canceled
    nothing; and the loop ends exactly with a navigation that came back
    without a pose. *)
Theorem convergence_restarts_on_material_change cfg fuel :
  (∀ n dest_wp src_string s fut t1 t2 rest pose,
     result_future s = Some fut →
     script s = t1 :: t2 :: rest →
     future_result t1 = None →
     is_cancel_requested (polled t1 t2 rest s) = false →
     found_check (polled t1 t2 rest s) = (Ret (Some pose), polled t1 t2 rest s) →
     gps_nav_loop (S n) dest_wp src_string true s
     = if PrimFloat.ltb update_threshold
            (PrimFloat.abs (latitude pose - latitude dest_wp))
          || PrimFloat.ltb update_threshold
               (PrimFloat.abs (longitude pose - longitude dest_wp))
       then (task_info ("Improved GPS location found" +:+ src_string);;
             cancelTask;; sleep 0.5;; mret (Some pose)) (polled t1 t2 rest s)
       else gps_nav_loop n dest_wp src_string true (polled t1 t2 rest s))
  ∧ (∀ dest_wp src_string s r s',
       gps_nav cfg fuel dest_wp src_string true s = (Ret r, s') →
       ∃ evs, trace s' = trace s ++ evs ∧
         match r with
         | Some pose =>
             materially_changed pose dest_wp = true
             ∧ motions evs = [Follow (goals_sent s); CancelGoal (goals_sent s)]
         | None => motions evs = [Follow (goals_sent s)]
         end)
  ∧ (∀ n found_loc print_string s pose s1,
       gps_nav cfg fuel found_loc (" (" +:+ print_string +:+ ")") true s
       = (Ret (Some pose), s1) →
       converge_loop cfg fuel (S n) found_loc print_string s
       = converge_loop cfg fuel n pose print_string s1)
  ∧ (∀ n found_loc print_string s s1,
       gps_nav cfg fuel found_loc (" (" +:+ print_string +:+ ")") true s
       = (Ret None, s1) →
       converge_loop cfg fuel (S n) found_loc print_string s = (Ret tt, s1))
  ∧ (∀ n found_loc print_string s s',
       converge_loop cfg fuel n found_loc print_string s = (Ret tt, s') →
       ∃ last s1,
         gps_nav cfg fuel last (" (" +:+ print_string +:+ ")") true s1
         = (Ret None, s')).
Proof.
  split; [|split; [|split; [|split]]].
  - intros. by apply (gps_nav_loop_turn _ _ _ _ fut).
  - apply gps_nav_updating.
  - intros n found_loc print_string s pose s1 Hnav. cbn [converge_loop].
    by rewrite bind_unfold, Hnav.
  - intros n found_loc print_string s s1 Hnav. cbn [converge_loop].
    by rewrite bind_unfold, Hnav.
  - apply converge_loop_returns.
Qed.

Module ScenarioConverge.

(** Marker 1 seen again, 0.00003 degrees further north than before, and seen
    again 0.000004 degrees from there. *)
Definition moved : tick :=
  mkTick [ArucoMsg [mkMarker 1 (Some (40.00205, -111.002)%float)]] true None None.
Definition nudged : tick :=
  mkTick [ArucoMsg [mkMarker 1 (Some (40.002054, -111.002)%float)]] true None None.

(** aruco1 alone: found by the spin, a first convergence navigation during
    which the pose moves, a second during which it is only nudged. *)
Definition world : list tick :=
  Scenario.start
  ++ [Scenario.quiet; Scenario.done_]
  ++ [Scenario.quiet; Scenario.quiet; Scenario.seen; Scenario.quiet]
  ++ [Scenario.quiet; Scenario.quiet; moved; Scenario.quiet; Scenario.quiet]
  ++ [Scenario.quiet; Scenario.quiet; nudged; Scenario.done_]
  ++ [Scenario.quiet; Scenario.quiet; Scenario.quiet]
  ++ [Scenario.quiet].

End ScenarioConverge.

(** A pose that moves by 0.00003 degrees restarts the navigation, one that
    moves by 0.000004 degrees does not. *)
Example convergence_restarts_once :
  let r := run_mission Scenario.planners ["aruco1"%string] Scenario.table
             ScenarioConverge.world Scenario.idle in
  let evs := new_events Scenario.idle r.2 in
  r.1 = Ret msg_succeeded
  ∧ motions evs
    = [Follow 0; Spin 1; CancelGoal 1; Follow 2; CancelGoal 2; Follow 3]
  ∧ sleeps evs = [2; 0.1; 0.1; 0.5; 0.1; 10]%float
  ∧ found_poses r.2 !! "aruco1"%string
    = Some (Some (latLonYaw2Geopose 40.002054 (-111.002)))
  ∧ script r.2 = [].
Proof. vm_compute. done. Qed.

(* ===================================================================== *)
(** ** Cancellation *)
(* ===================================================================== *)

(** What a trace ends with when a polling loop has just observed the cancel
    request: the sleep of the turn (one second and the warning in the wait for
    a GPS fix, a tenth of a second in the path-follow and spin loops), then at
    most one cancellation of a motion goal. *)
Definition cancel_tail (tail : list event) : Prop :=
  ∃ d warn c,
    tail = EvSleep d :: warn ++ c
    ∧ ((d = 1%float
        ∧ ∃ l, warn = [EvFeedback Warn l "Waiting on a GPS fix..."])
       ∨ (d = 0.1%float ∧ warn = []))
    ∧ (c = [] ∨ ∃ id, c = [EvCancelGoal id]).

(** [never_cancels m]: no exception of [m] is the cancellation. *)
Definition never_cancels {A} (m : M A) : Prop :=
  ∀ s e s', m s = (Raise e, s') → e ≠ canceled_msg.

(** [cancels_cleanly m]: when [m] raises the cancellation, what it added to
    the trace ends in a [cancel_tail]. *)
Definition cancels_cleanly {A} (m : M A) : Prop :=
  ∀ s s', m s = (Raise canceled_msg, s') →
    ∃ pre tail, trace s' = trace s ++ pre ++ tail ∧ cancel_tail tail.

Lemma never_cancels_cleanly {A} (m : M A) : never_cancels m → cancels_cleanly m.
Proof. intros Hm s s' H. by apply Hm in H. Qed.

Lemma never_cancels_ret {A} (a : A) : never_cancels (mret a).
Proof. done. Qed.
Lemma never_cancels_gets {A} (f : node → A) : never_cancels (gets f).
Proof. done. Qed.
Lemma never_cancels_modify f : never_cancels (modify f).
Proof. done. Qed.
Lemma never_cancels_emit e : never_cancels (emit e).
Proof. done. Qed.
Lemma never_cancels_block : never_cancels block.
Proof. intros s e s'. unfold block. by destruct (script s). Qed.
Lemma never_cancels_raise {A} e :
  e ≠ canceled_msg → never_cancels (raise (A:=A) e).
Proof. intros He s e' s' [= <- _]. done. Qed.

Lemma never_cancels_bind {A B} (m : M A) (f : A → M B) :
  never_cancels m → (∀ a, never_cancels (f a)) → never_cancels (m ≫= f).
Proof.
  intros Hm Hf s e s'. rewrite bind_unfold.
  destruct (m s) as [[a|e'| |] s1] eqn:Hrun; try done.
  - apply Hf.
  - intros [= <- <-]. by apply Hm in Hrun.
Qed.

Ltac never_cancels_tac :=
  repeat first
    [ apply never_cancels_ret | apply never_cancels_gets
    | apply never_cancels_modify | apply never_cancels_emit
    | apply never_cancels_block | apply never_cancels_raise; discriminate
    | apply never_cancels_bind | progress intros | case_match ].

Lemma sleep_never_cancels d : never_cancels (sleep d).
Proof. unfold sleep. never_cancels_tac. Qed.
Lemma task_feedback_never_cancels lvl body : never_cancels (task_feedback lvl body).
Proof. unfold task_feedback. never_cancels_tac. Qed.
Lemma async_service_call_never_cancels m : never_cancels (async_service_call m).
Proof. unfold async_service_call. never_cancels_tac. Qed.
Lemma send_goal_never_cancels ev : never_cancels (send_goal ev).
Proof. unfold send_goal. never_cancels_tac. Qed.
Lemma cancelTask_never_cancels : never_cancels cancelTask.
Proof. unfold cancelTask. never_cancels_tac. Qed.
Lemma isTaskComplete_never_cancels : never_cancels isTaskComplete.
Proof. unfold isTaskComplete. never_cancels_tac. Qed.
Lemma report_result_never_cancels what src_string :
  never_cancels (report_result what src_string).
Proof.
  unfold report_result, getResult, task_info, task_warn, task_error,
    task_feedback. never_cancels_tac.
Qed.
Lemma publish_path_never_cancels path dest_wp :
  never_cancels (publish_path path dest_wp).
Proof.
  unfold publish_path. induction path as [|wp path IH]; cbn [foldr];
    [apply never_cancels_ret|].
  apply never_cancels_bind; [|intros; apply IH]. never_cancels_tac.
Qed.
Lemma plan_order_never_cancels cfg : never_cancels (plan_order cfg).
Proof. unfold plan_order. never_cancels_tac. Qed.

Lemma found_check_never_cancels : never_cancels found_check.
Proof.
  unfold found_check. apply never_cancels_bind; [apply never_cancels_gets|].
  intros l. destruct (_ || _) eqn:Hl; [|apply never_cancels_ret].
  apply never_cancels_bind; [apply never_cancels_gets|intros fp].
  destruct (fp !! l) as [[pose|]|]; try apply never_cancels_ret.
  apply never_cancels_raise. intros ->. by vm_compute in Hl.
Qed.

Lemma signal_arrival_never_cancels : never_cancels signal_arrival.
Proof.
  unfold signal_arrival.
  apply never_cancels_bind; [apply task_feedback_never_cancels|intros _].
  apply never_cancels_bind; [apply async_service_call_never_cancels|intros _].
  apply never_cancels_bind; [apply sleep_never_cancels|intros _].
  apply async_service_call_never_cancels.
Qed.

Lemma waitForNodeToActivate_loop_never_cancels n name state :
  never_cancels (waitForNodeToActivate_loop n name state).
Proof.
  revert state. induction n as [|n IH]; intros state;
    cbn [waitForNodeToActivate_loop]; destruct (String.eqb state "active");
    try apply never_cancels_ret; [done|].
  apply never_cancels_bind; [apply never_cancels_emit|intros _].
  apply never_cancels_bind; [apply never_cancels_block|intros t].
  apply never_cancels_bind; [apply sleep_never_cancels|intros _; apply IH].
Qed.

Lemma waitUntilNav2Active_never_cancels fuel navigator localizer :
  never_cancels (waitUntilNav2Active fuel navigator localizer).
Proof.
  unfold waitUntilNav2Active. apply never_cancels_bind;
    [|intros _; apply waitForNodeToActivate_loop_never_cancels].
  destruct (String.eqb _ _);
    [apply never_cancels_ret|apply waitForNodeToActivate_loop_never_cancels].
Qed.

Lemma cancels_cleanly_bind {A B} (m : M A) (f : A → M B) :
  cancels_cleanly m → emits any_event m → (∀ a, cancels_cleanly (f a)) →
  cancels_cleanly (m ≫= f).
Proof.
  intros Hm Hem Hf s s'. rewrite bind_unfold.
  destruct (Hem s) as [(evs & Htr & _) _].
  destruct (m s) as [[a|e'| |] s1] eqn:Hrun; try done.
  - intros (pre & tail & Htr' & Htail)%Hf. exists (evs ++ pre), tail.
    cbn [snd] in Htr. by rewrite Htr', Htr, <- !app_assoc.
  - intros [= -> <-]. by apply Hm.
Qed.

(** The check itself: the cancellation is raised after at most one
    cancellation of a motion goal. *)
Lemma check_cancel_raise s s' :
  check_cancel s = (Raise canceled_msg, s') →
  trace s' = trace s ∨ ∃ id, trace s' = trace s ++ [EvCancelGoal id].
Proof.
  unfold check_cancel. mstep. destruct (is_cancel_requested s); [|done].
  rewrite bind_unfold.
  destruct (cancelTask s) as [[[]|e| |] s1] eqn:Hcancel; try done.
  - intros [= <-]. revert Hcancel. unfold cancelTask. mstep.
    destruct (result_future s); [|intros [= <-]; by left].
    mstep. destruct (goal_handle s) as [[id acc]|]; [|done]. mstep.
    intros (t & s2 & (rest & _ & ->)%block_ret & [= <-])%bind_ret_inv.
    right. exists id. by rewrite deliver_trace.
  - intros [= -> <-]. by apply cancelTask_never_cancels in Hcancel.
Qed.

(** A turn of a polling loop that sleeps, checks and goes on with [k]. *)
Lemma poll_turn_cancels_cleanly {A} (k : M A) :
  cancels_cleanly k →
  cancels_cleanly (sleep 0.1;; check_cancel;; k).
Proof.
  intros Hk s s'. rewrite bind_unfold.
  destruct (sleep 0.1 s) as [[[]|e| |] s1] eqn:Hsleep; try done.
  - apply sleep_ret in Hsleep as (Htr1 & _). rewrite bind_unfold.
    destruct (check_cancel s1) as [[[]|e| |] s2] eqn:Hcheck; try done.
    + apply check_cancel_ret in Hcheck as ->.
      intros (pre & tail & Htr & Htail)%Hk. exists (EvSleep 0.1 :: pre), tail.
      by rewrite Htr, Htr1, <- !app_assoc.
    + intros [= -> <-]. exists [].
      apply check_cancel_raise in Hcheck as [Htr|[id Htr]].
      * exists [EvSleep 0.1]. rewrite Htr, Htr1. split; [done|].
        exists 0.1%float, [], []. split; [done|]. split; [by right|by left].
      * exists [EvSleep 0.1; EvCancelGoal id].
        rewrite Htr, Htr1, <- !app_assoc. split; [done|].
        exists 0.1%float, [], [EvCancelGoal id]. split; [done|].
        split; [by right|right; by exists id].
  - intros [= -> <-]. by apply sleep_never_cancels in Hsleep.
Qed.

Lemma gps_wait_turn_cancels_cleanly {A} (k : M A) :
  cancels_cleanly k →
  cancels_cleanly (sleep 1;; task_warn "Waiting on a GPS fix...";;
                   check_cancel;; k).
Proof.
  intros Hk s s'. rewrite bind_unfold.
  destruct (sleep 1 s) as [[[]|e| |] s1] eqn:Hsleep; try done.
  - apply sleep_ret in Hsleep as (Htr1 & _). unfold task_warn.
    rewrite bind_unfold, task_feedback_run, bind_unfold.
    destruct (check_cancel _) as [[[]|e| |] s2] eqn:Hcheck; try done.
    + apply check_cancel_ret in Hcheck as ->.
      intros (pre & tail & Htr & Htail)%Hk.
      eexists (EvSleep 1 :: _ :: pre), tail. split; [|done].
      rewrite Htr. cbn [trace with_feedback set_trace].
      rewrite Htr1, <- !app_assoc. reflexivity.
    + intros [= -> <-]. exists [].
      apply check_cancel_raise in Hcheck as [Htr|[id Htr]];
        cbn [trace with_feedback set_trace] in Htr.
      * eexists [EvSleep 1; _]. rewrite Htr, Htr1, <- !app_assoc.
        split; [reflexivity|].
        eexists 1%float, [_], []. split; [reflexivity|].
        split; [left; split; [done|by eexists]|by left].
      * eexists [EvSleep 1; _; EvCancelGoal id].
        rewrite Htr, Htr1, <- !app_assoc. split; [reflexivity|].
        eexists 1%float, [_], [EvCancelGoal id]. split; [reflexivity|].
        split; [left; split; [done|by eexists]|right; by exists id].
  - intros [= -> <-]. by apply sleep_never_cancels in Hsleep.
Qed.

Section CancelsCleanly.

Variable cfg : config.

Local Ltac nc := apply never_cancels_cleanly;
  first [ apply task_feedback_never_cancels | apply sleep_never_cancels
        | apply cancelTask_never_cancels | apply isTaskComplete_never_cancels
        | apply found_check_never_cancels | apply report_result_never_cancels
        | apply publish_path_never_cancels | apply send_goal_never_cancels
        | apply plan_order_never_cancels | apply signal_arrival_never_cancels
        | apply async_service_call_never_cancels
        | apply waitUntilNav2Active_never_cancels
        | apply never_cancels_ret | apply never_cancels_gets
        | apply never_cancels_modify | apply never_cancels_emit
        | apply never_cancels_raise; discriminate ].

Local Ltac em :=
  first [ apply respects_task_feedback; done | apply respects_sleep; done
        | apply respects_check_cancel; done | apply respects_cancelTask; done
        | apply respects_isTaskComplete | apply respects_found_check
        | apply respects_report_result; done | apply respects_publish_path; done
        | apply respects_send_goal; done | apply (respects_plan_order cfg)
        | apply respects_signal_arrival; done
        | apply respects_async_service_call; done
        | apply (respects_gps_nav cfg); done
        | apply respects_spin_search; done
        | apply (respects_hex_search cfg); done
        | apply (respects_search_target cfg); done
        | apply (respects_converge_loop cfg); done
        | apply (respects_exec_leg cfg); first [done|apply emits_rel_set_leg]
        | apply (respects_exec_legs cfg);
          first [done|intros; apply emits_rel_set_leg]
        | apply respects_wait_gps_fix; done
        | apply respects_waitUntilNav2Active; done
        | apply respects_ret | apply respects_raise | apply respects_gets
        | apply respects_modify; intros; by apply emits_rel_silent
        | apply respects_emit; done ].

Lemma gps_nav_loop_cancels_cleanly n dest_wp src_string updating :
  cancels_cleanly (gps_nav_loop n dest_wp src_string updating).
Proof.
  induction n as [|n IH]; cbn [gps_nav_loop];
    (apply cancels_cleanly_bind; [nc|em|]); intros [|]; try nc.
  { by apply never_cancels_cleanly. }
  apply poll_turn_cancels_cleanly. destruct updating.
  - apply cancels_cleanly_bind; [nc|em|]. intros [pose|]; [|nc].
    destruct (materially_changed pose dest_wp); [|done].
    apply cancels_cleanly_bind; [nc|em|intros _].
    apply cancels_cleanly_bind; [nc|em|intros _].
    apply cancels_cleanly_bind; [nc|em|intros _]. nc.
  - apply cancels_cleanly_bind; [nc|em|]. intros [pose|]; [|done].
    apply cancels_cleanly_bind; [nc|em|intros _]. nc.
Qed.

Lemma gps_nav_cancels_cleanly fuel dest_wp src_string updating :
  cancels_cleanly (gps_nav cfg fuel dest_wp src_string updating).
Proof.
  unfold gps_nav. apply cancels_cleanly_bind; [nc|em|intros _].
  apply cancels_cleanly_bind; [nc|em|intros gps].
  apply cancels_cleanly_bind.
  { repeat case_match; nc. }
  { repeat case_match; em. }
  intros path. apply cancels_cleanly_bind; [nc|em|intros _].
  apply cancels_cleanly_bind; [nc|em|intros _].
  apply cancels_cleanly_bind; [apply gps_nav_loop_cancels_cleanly| |].
  { by apply respects_gps_nav_loop. }
  intros [pose|]; [nc|]. apply cancels_cleanly_bind; [nc|em|intros _]. nc.
Qed.

Lemma spin_search_loop_cancels_cleanly n : cancels_cleanly (spin_search_loop n).
Proof.
  induction n as [|n IH]; cbn [spin_search_loop];
    (apply cancels_cleanly_bind; [nc|em|]); intros [|]; try nc.
  { by apply never_cancels_cleanly. }
  apply poll_turn_cancels_cleanly.
  apply cancels_cleanly_bind; [nc|em|]. intros [pose|]; [|done].
  apply cancels_cleanly_bind; [nc|em|intros _]. nc.
Qed.

Lemma spin_search_cancels_cleanly fuel src_string :
  cancels_cleanly (spin_search fuel src_string).
Proof.
  unfold spin_search. apply cancels_cleanly_bind; [nc|em|intros _].
  apply cancels_cleanly_bind; [nc|em|intros _].
  apply cancels_cleanly_bind; [apply spin_search_loop_cancels_cleanly| |].
  { by apply respects_spin_search_loop. }
  intros [pose|]; [nc|]. apply cancels_cleanly_bind; [nc|em|intros _]. nc.
Qed.

Lemma hex_search_loop_cancels_cleanly fuel base_wp i coords :
  cancels_cleanly (hex_search_loop cfg fuel base_wp i coords).
Proof.
  revert i. induction coords as [|coord coords IH]; intros i;
    cbn [hex_search_loop].
  { apply cancels_cleanly_bind; [nc|em|intros _]. nc. }
  destruct base_wp as [base|]; [|nc].
  apply cancels_cleanly_bind; [apply gps_nav_cancels_cleanly|em|].
  intros [pose|]; [nc|].
  apply cancels_cleanly_bind; [apply spin_search_cancels_cleanly|em|].
  intros [pose|]; [nc|apply IH].
Qed.

Lemma hex_search_cancels_cleanly fuel : cancels_cleanly (hex_search cfg fuel).
Proof.
  unfold hex_search. apply cancels_cleanly_bind; [nc|em|intros _].
  apply cancels_cleanly_bind; [nc|em|intros l].
  apply cancels_cleanly_bind; [nc|em|intros table].
  apply hex_search_loop_cancels_cleanly.
Qed.

Lemma search_target_cancels_cleanly fuel found_loc :
  cancels_cleanly (search_target cfg fuel found_loc).
Proof.
  unfold search_target. apply cancels_cleanly_bind.
  { destruct found_loc; [nc|apply spin_search_cancels_cleanly]. }
  { destruct found_loc; em. }
  intros [pose|]; [nc|apply hex_search_cancels_cleanly].
Qed.

Lemma converge_loop_cancels_cleanly fuel n found_loc print_string :
  cancels_cleanly (converge_loop cfg fuel n found_loc print_string).
Proof.
  revert found_loc. induction n as [|n IH]; intros found_loc;
    cbn [converge_loop]; [done|].
  apply cancels_cleanly_bind; [apply gps_nav_cancels_cleanly|em|].
  intros [pose|]; [apply IH|nc].
Qed.

Lemma exec_leg_cancels_cleanly fuel l : cancels_cleanly (exec_leg cfg fuel l).
Proof.
  unfold exec_leg. apply cancels_cleanly_bind; [nc|em|intros _].
  destruct (_ || _); [|nc].
  apply cancels_cleanly_bind; [nc|em|intros _].
  apply cancels_cleanly_bind; [nc|em|intros table].
  destruct (find_wp l table) as [leg_wp|]; [|nc].
  apply cancels_cleanly_bind; [apply gps_nav_cancels_cleanly|em|].
  intros found_loc. destruct (_ || _).
  - apply cancels_cleanly_bind; [apply search_target_cancels_cleanly|em|].
    intros [pose|]; [|nc].
    apply cancels_cleanly_bind; [nc|em|intros _].
    apply cancels_cleanly_bind; [apply converge_loop_cancels_cleanly|em|].
    intros _. apply cancels_cleanly_bind; [nc|em|intros _]. nc.
  - apply cancels_cleanly_bind; [nc|em|intros _]. nc.
Qed.

Lemma exec_legs_cancels_cleanly fuel ls : cancels_cleanly (exec_legs cfg fuel ls).
Proof.
  induction ls as [|l ls IH]; cbn [exec_legs]; [nc|].
  apply cancels_cleanly_bind; [apply exec_leg_cancels_cleanly|em|].
  intros _. apply IH.
Qed.

Lemma wait_gps_fix_cancels_cleanly n : cancels_cleanly (wait_gps_fix n).
Proof.
  induction n as [|n IH]; cbn [wait_gps_fix];
    (apply cancels_cleanly_bind; [nc|em|]); intros [gps|]; try nc.
  { by apply never_cancels_cleanly. }
  by apply gps_wait_turn_cancels_cleanly.
Qed.

Lemma exec_autonomy_task_cancels_cleanly fuel :
  cancels_cleanly (exec_autonomy_task cfg fuel).
Proof.
  unfold exec_autonomy_task. apply cancels_cleanly_bind; [nc|em|intros _].
  apply cancels_cleanly_bind; [apply wait_gps_fix_cancels_cleanly|em|].
  intros _. apply cancels_cleanly_bind; [nc|em|intros _].
  apply cancels_cleanly_bind; [nc|em|intros _].
  apply cancels_cleanly_bind; [nc|em|intros ls].
  apply cancels_cleanly_bind; [nc|em|intros _].
  apply cancels_cleanly_bind; [nc|em|intros _].
  apply cancels_cleanly_bind; [nc|em|intros _].
  apply cancels_cleanly_bind; [apply exec_legs_cancels_cleanly|em|].
  intros _. apply cancels_cleanly_bind; [nc|em|intros _]. nc.
Qed.

End CancelsCleanly.

(** A mission whose fatal line reports the cancellation: the exception came
    out of a polling loop right after its check, and nothing but the fatal
    line, the abort of the task goal and the teleop switch follows. *)
Lemma callback_cancelled cfg fuel l ls table s msg s' :
  action_server_callback cfg fuel (l :: ls) table s = (Ret msg, s') →
  existsb reports_cancel (new_events s s') = true →
  ∃ pre tail cur,
    new_events s s'
    = EvTrigger Auto :: pre ++ tail
        ++ [EvFeedback Fatal cur canceled_msg; EvGoal Abort; EvTrigger Teleop]
    ∧ cancel_tail tail.
Proof.
  rewrite action_server_callback_legs. unfold guarded_mission. intros H.
  apply bind_ret_inv in H as (u & s1 & Hauto & H).
  apply async_service_call_ret in Hauto as (Htr1 & _ & _).
  apply bind_ret_inv in H as (msg' & s2 & Htry & H).
  apply bind_ret_inv in H as (u' & s3 & Htele & H).
  apply async_service_call_ret in Htele as (Htr3 & _ & _).
  injection H as <- <-.
  unfold try_except in Htry. rewrite bind_unfold in Htry.
  destruct (exec_autonomy_task_inside cfg fuel s1) as [(body & Hbody & Hin) _].
  pose proof (exec_autonomy_task_cancels_cleanly cfg fuel s1) as Hclean.
  destruct (exec_autonomy_task cfg fuel s1) as [[[]|e| |] s1'] eqn:Hrun;
    cbn [snd] in Hbody; try done.
  - cbn in Htry. injection Htry as <- <-.
    assert (trace s3 = trace s ++ EvTrigger Auto :: body
                         ++ [EvGoal Succeed; EvTrigger Teleop]) as Htr.
    { rewrite Htr3. cbn [trace set_trace]. rewrite Hbody, Htr1.
      cbn [trace init_mission set_legs set_found_poses set_leg set_cancel_flag
             set_is_cancel_requested set_wps].
      by rewrite <- !app_assoc. }
    erewrite new_events_app by exact Htr.
    by rewrite existsb_mission.
  - cbn in Htry. injection Htry as <- <-.
    assert (trace s3 = trace s ++ EvTrigger Auto :: body
                         ++ [EvFeedback Fatal (leg s1') e; EvGoal Abort;
                             EvTrigger Teleop]) as Htr.
    { rewrite Htr3. cbn [trace set_trace]. rewrite Hbody, Htr1.
      cbn [trace init_mission set_legs set_found_poses set_leg set_cancel_flag
             set_is_cancel_requested set_wps].
      by rewrite <- !app_assoc. }
    erewrite new_events_app by exact Htr.
    rewrite existsb_mission by done. cbn [existsb reports_cancel].
    rewrite !orb_false_r. intros ->%String.eqb_eq.
    destruct (Hclean s1' eq_refl) as (pre & tail & Htr' & Htail).
    rewrite Hbody in Htr'. apply app_inv_head in Htr'. subst body.
    exists pre, tail, (leg s1'). split; [|done]. by rewrite <- !app_assoc.
Qed.

(** The turn of each polling loop in which the cancel request is seen. *)
Lemma gps_nav_loop_cancel_turn n dest_wp src_string updating s fut t1 t2 rest :
  result_future s = Some fut →
  script s = t1 :: t2 :: rest →
  future_result t1 = None →
  is_cancel_requested (polled t1 t2 rest s) = true →
  gps_nav_loop (S n) dest_wp src_string updating s
  = (cancelTask;; raise canceled_msg) (polled t1 t2 rest s).
Proof.
  intros Hfut Hsc Hnone Hcancel. cbn [gps_nav_loop].
  rewrite bind_unfold, (isTaskComplete_pending s fut t1 (t2 :: rest)) by done.
  rewrite bind_unfold, (sleep_run _ _ t2 rest)
    by (unfold tick_taken; by rewrite deliver_script).
  fold (polled t1 t2 rest s).
  rewrite (bind_unfold check_cancel). unfold check_cancel at 1.
  rewrite (bind_unfold (gets _)). cbn [gets]. rewrite Hcancel.
  rewrite !bind_unfold. by destruct (cancelTask _) as [[[]| | |] ?].
Qed.

Lemma spin_search_loop_cancel_turn n s fut t1 t2 rest :
  result_future s = Some fut →
  script s = t1 :: t2 :: rest →
  future_result t1 = None →
  is_cancel_requested (polled t1 t2 rest s) = true →
  spin_search_loop (S n) s
  = (cancelTask;; raise canceled_msg) (polled t1 t2 rest s).
Proof.
  intros Hfut Hsc Hnone Hcancel. cbn [spin_search_loop].
  rewrite bind_unfold, (isTaskComplete_pending s fut t1 (t2 :: rest)) by done.
  rewrite bind_unfold, (sleep_run _ _ t2 rest)
    by (unfold tick_taken; by rewrite deliver_script).
  fold (polled t1 t2 rest s).
  rewrite (bind_unfold check_cancel). unfold check_cancel at 1.
  rewrite (bind_unfold (gets _)). cbn [gets]. rewrite Hcancel.
  rewrite !bind_unfold. by destruct (cancelTask _) as [[[]| | |] ?].
Qed.

(** The node after one turn of the wait for a GPS fix: the second of sleep,
    then the warning. *)
Definition waited (t : tick) (rest : list tick) (s : node) : node :=
  with_feedback Warn "Waiting on a GPS fix..."
    (tick_taken t rest (set_trace (trace s ++ [EvSleep 1]) s)).

Lemma wait_gps_fix_cancel_turn n s t rest :
  filtered_gps s = None →
  script s = t :: rest →
  is_cancel_requested (waited t rest s) = true →
  wait_gps_fix (S n) s = (cancelTask;; raise canceled_msg) (waited t rest s).
Proof.
  intros Hgps Hsc Hcancel. cbn [wait_gps_fix]. mstep. rewrite Hgps.
  rewrite bind_unfold, (sleep_run _ _ t rest) by done.
  unfold task_warn. rewrite bind_unfold, task_feedback_run.
  fold (waited t rest s).
  rewrite (bind_unfold check_cancel). unfold check_cancel at 1.
  rewrite (bind_unfold (gets _)). cbn [gets]. rewrite Hcancel.
  rewrite !bind_unfold. by destruct (cancelTask _) as [[[]| | |] ?].
Qed.

Lemma cancelTask_without_future s :
  result_future s = None → cancelTask s = (Ret tt, s).
Proof. intros Hfut. unfold cancelTask. mstep. by rewrite Hfut. Qed.

Lemma cancelTask_with_future s fut id acc t rest :
  result_future s = Some fut → goal_handle s = Some (id, acc) →
  script s = t :: rest →
  cancelTask s
  = (Ret tt, tick_taken t rest (set_trace (trace s ++ [EvCancelGoal id]) s)).
Proof.
  intros Hfut Hh Hsc. unfold cancelTask. mstep. rewrite Hfut. mstep.
  rewrite Hh. mstep. rewrite bind_unfold. unfold block.
  cbn [script set_trace]. by rewrite Hsc.
Qed.

(** C4 (amended). Each polling loop checks the cancel request once a turn,
    right after its sleep: a request that is there after the sleep of the
    turn (one second and a warning in the wait for a GPS fix, a tenth of a
    second after the bounded wait for the result in the path-follow and spin
    loops) makes the turn call [cancelTask] and raise. [cancelTask] asks for
    the cancellation of the last goal, once, only when a result future exists.
    A mission whose fatal line reports the cancellation ends with that sleep,
    at most one cancellation, the fatal line, the abort of the task goal and
    the teleop switch: no motion goal is sent after the check. *)
Theorem cancel_check_in_polling_loops cfg :
  (∀ request_legs table world s msg s',
     run_mission cfg request_legs table world s = (Ret msg, s') →
     existsb reports_cancel (new_events s s') = true →
     ∃ pre tail cur,
       new_events s s'
       = EvTrigger Auto :: pre ++ tail
           ++ [EvFeedback Fatal cur canceled_msg; EvGoal Abort;
               EvTrigger Teleop]
       ∧ cancel_tail tail)
  ∧ (∀ n s t rest,
       filtered_gps s = None → script s = t :: rest →
       is_cancel_requested (waited t rest s) = true →
       wait_gps_fix (S n) s
       = (cancelTask;; raise canceled_msg) (waited t rest s))
  ∧ (∀ n dest_wp src_string updating s fut t1 t2 rest,
       result_future s = Some fut → script s = t1 :: t2 :: rest →
       future_result t1 = None →
       is_cancel_requested (polled t1 t2 rest s) = true →
       gps_nav_loop (S n) dest_wp src_string updating s
       = (cancelTask;; raise canceled_msg) (polled t1 t2 rest s))
  ∧ (∀ n s fut t1 t2 rest,
       result_future s = Some fut → script s = t1 :: t2 :: rest →
       future_result t1 = None →
       is_cancel_requested (polled t1 t2 rest s) = true →
       spin_search_loop (S n) s
       = (cancelTask;; raise canceled_msg) (polled t1 t2 rest s))
  ∧ (∀ s, result_future s = None → cancelTask s = (Ret tt, s))
  ∧ (∀ s fut id acc t rest,
       result_future s = Some fut → goal_handle s = Some (id, acc) →
       script s = t :: rest →
       cancelTask s
       = (Ret tt,
          tick_taken t rest (set_trace (trace s ++ [EvCancelGoal id]) s))).
Proof.
  split; [|split; [|split; [|split; [|split]]]].
  - intros request_legs table world s msg s'. unfold run_mission.
    destruct request_legs as [|l ls].
    + rewrite action_server_callback_no_legs. intros [= <- <-].
      by erewrite new_events_app by done.
    + intros Hrun Hcancel.
      exact (callback_cancelled cfg (S (length world)) l ls table
               (set_script world s) msg s' Hrun Hcancel).
  - apply wait_gps_fix_cancel_turn.
  - apply gps_nav_loop_cancel_turn.
  - apply spin_search_loop_cancel_turn.
  - apply cancelTask_without_future.
  - apply cancelTask_with_future.
Qed.

(** C4, as stated, fails in the wait for a GPS fix: the turn of that loop
    sleeps one second, not a tenth, and the check sends no cancellation to the
    motion servers, as no goal was ever sent. *)
Lemma gps_wait_cancel_sends_no_cancellation :
  let r := run_mission Scenario.planners ["gps1"%string] Scenario.table
             Scenario.cancel_in_gps_wait Scenario.no_fix in
  let evs := new_events Scenario.no_fix r.2 in
  r.1 = Ret msg_failed
  ∧ existsb reports_cancel evs = true
  ∧ sleeps evs = [1%float]
  ∧ PrimFloat.eqb 1 0.1 = false
  ∧ motions evs = []
  ∧ length (motions evs) ≠ 1.
Proof. vm_compute. repeat split; try done. Qed.

Lemma cancel_check_in_polling_loops_witness :
  let r := run_mission Scenario.planners ["aruco1"%string] Scenario.table
             Scenario.cancel_in_spin Scenario.idle in
  (r = (Ret msg_failed, r.2)
   ∧ existsb reports_cancel (new_events Scenario.idle r.2) = true)
  ∧ ∃ pre tail cur,
      new_events Scenario.idle r.2
      = EvTrigger Auto :: pre ++ tail
          ++ [EvFeedback Fatal cur canceled_msg; EvGoal Abort;
              EvTrigger Teleop]
      ∧ cancel_tail tail.
Proof.
  split; [split; vm_compute; reflexivity|].
  apply (proj1 (cancel_check_in_polling_loops Scenario.planners)
           ["aruco1"%string] Scenario.table Scenario.cancel_in_spin
           Scenario.idle msg_failed); vm_compute; reflexivity.
Defined.

(* ===================================================================== *)
(** ** More of the executor: waypoints, markers, fixes and flags *)
(* ===================================================================== *)

Definition wp_pose (wp : waypoint) : GeoPose :=
  latLonYaw2Geopose (wp_latitude wp) (wp_longitude wp).

Lemma find_wp_from acc l table :
  foldl (λ acc wp, if String.eqb (wp_leg wp) l then Some (wp_pose wp) else acc)
    acc table
  = match find_wp l table with Some pose => Some pose | None => acc end.
Proof.
  unfold find_wp. revert acc. induction table as [|wp table IH] using rev_ind;
    intros acc; [done|].
  rewrite !foldl_app. cbn [foldl]. fold (wp_pose wp).
  by destruct (String.eqb (wp_leg wp) l).
Qed.

Lemma find_wp_app l before after :
  find_wp l (before ++ after)
  = match find_wp l after with
    | Some pose => Some pose
    | None => find_wp l before
    end.
Proof. unfold find_wp at 1. rewrite foldl_app. apply find_wp_from. Qed.

Lemma find_wp_cons l wp after :
  find_wp l (wp :: after)
  = match find_wp l after with
    | Some pose => Some pose
    | None => if String.eqb (wp_leg wp) l then Some (wp_pose wp) else None
    end.
Proof.
  change (wp :: after) with ([wp] ++ after). by rewrite find_wp_app.
Qed.

Lemma find_wp_none l table :
  find_wp l table = None ↔ ∀ wp, wp ∈ table → wp_leg wp ≠ l.
Proof.
  induction table as [|wp table IH]; [by split; [intros _ ? ?%elem_of_nil|]|].
  rewrite find_wp_cons. split.
  - destruct (find_wp l table) eqn:Hrest; [done|].
    destruct (String.eqb_spec (wp_leg wp) l) as [|Hne]; [done|].
    intros _ wp' [->|Hin]%elem_of_cons; [done|]. by apply IH.
  - intros Hno. rewrite (proj2 IH) by (intros ? ?; apply Hno; by right).
    destruct (String.eqb_spec (wp_leg wp) l) as [Heq|]; [|done].
    exfalso. by apply (Hno wp); [left|].
Qed.

(** The waypoint of a leg is the last entry of the table that names the leg,
    and there is none exactly when no entry names it. *)
Theorem find_wp_last_entry_wins l before wp after :
  wp_leg wp = l →
  (∀ wp', wp' ∈ after → wp_leg wp' ≠ l) →
  find_wp l (before ++ wp :: after) = Some (wp_pose wp)
  ∧ (∀ table, find_wp l table = None ↔ ∀ wp', wp' ∈ table → wp_leg wp' ≠ l).
Proof.
  intros Hwp Hafter. split; [|apply find_wp_none].
  rewrite find_wp_app, find_wp_cons, (proj2 (find_wp_none l after)) by done.
  by rewrite (proj2 (String.eqb_eq _ _) Hwp).
Qed.

Module ScenarioTable.

(** A waypoint file that names gps1 twice. *)
Definition first : waypoint := mkWaypoint "gps1" 40.001 (-111.001).
Definition second : waypoint := mkWaypoint "gps1" 40.005 (-111.005).
Definition other : waypoint := mkWaypoint "gps2" 40.003 (-111.003).

End ScenarioTable.

Lemma find_wp_last_entry_wins_witness :
  let l := "gps1"%string in
  let before := [ScenarioTable.first] in
  let wp := ScenarioTable.second in
  let after := [ScenarioTable.other] in
  (wp_leg wp = l ∧ ∀ wp', wp' ∈ after → wp_leg wp' ≠ l)
  ∧ find_wp l (before ++ wp :: after) = Some (wp_pose wp)
    ∧ (∀ table, find_wp l table = None ↔ ∀ wp', wp' ∈ table → wp_leg wp' ≠ l).
Proof.
  assert (∀ wp', wp' ∈ [ScenarioTable.other] → wp_leg wp' ≠ "gps1"%string)
    as Hafter.
  { intros wp' Hin. apply list_elem_of_singleton in Hin. by subst wp'. }
  split; [split; [reflexivity|exact Hafter]|].
  apply (find_wp_last_entry_wins "gps1" [ScenarioTable.first]
           ScenarioTable.second [ScenarioTable.other]);
    [reflexivity|exact Hafter].
Defined.

(** On an aruco leg a marker is accepted exactly when its id is the tag of
    the current leg: the converted pose of such a marker is stored under the
    leg, any other marker changes nothing. *)
Theorem marker_accepted_iff_tag_of_leg mk s :
  leg s ∈ aruco_legs →
  (tags !! leg s = Some (marker_id mk) →
   ∀ pose, pose_to_geopose (marker_geo mk) s = Some pose →
     aruco_callback [mk] s
     = set_found_poses (<[leg s := Some pose]> (found_poses s)) s)
  ∧ (tags !! leg s ≠ Some (marker_id mk) → aruco_callback [mk] s = s).
Proof.
  intros Hleg. unfold aruco_callback. rewrite bool_decide_eq_true_2 by done.
  cbn [foldl]. split.
  - intros -> pose ->. by rewrite bool_decide_eq_true_2.
  - intros Htag. destruct (tags !! leg s) as [tag|]; [|done].
    rewrite bool_decide_eq_false_2; [done|]. intros Hid. apply Htag.
    by rewrite Hid.
Qed.

Module ScenarioMarker.

(** The node while the aruco2 leg runs, and markers 2 and 1. *)
Definition on_aruco2 : node := set_leg "aruco2" Scenario.idle.
Definition two : marker := mkMarker 2 (Some (40.0021, -111.0021)%float).
Definition one : marker := mkMarker 1 (Some (40.0021, -111.0021)%float).

End ScenarioMarker.

Lemma marker_accepted_iff_tag_of_leg_witness :
  let s := ScenarioMarker.on_aruco2 in
  let mk := ScenarioMarker.two in
  (leg s ∈ aruco_legs ∧ tags !! leg s = Some (marker_id mk)
   ∧ tags !! leg s ≠ Some (marker_id ScenarioMarker.one))
  ∧ (tags !! leg s = Some (marker_id mk) →
     ∀ pose, pose_to_geopose (marker_geo mk) s = Some pose →
       aruco_callback [mk] s
       = set_found_poses (<[leg s := Some pose]> (found_poses s)) s)
    ∧ (tags !! leg s ≠ Some (marker_id mk) → aruco_callback [mk] s = s).
Proof.
  assert (leg ScenarioMarker.on_aruco2 ∈ aruco_legs) as Hleg.
  { cbn. apply list_elem_of_further, list_elem_of_here. }
  split; [split; [exact Hleg|split; [reflexivity|discriminate]]|].
  apply (marker_accepted_iff_tag_of_leg ScenarioMarker.two
           ScenarioMarker.on_aruco2 Hleg).
Defined.

Lemma pose_to_geopose_no_fix geo s :
  filtered_gps s = None → pose_to_geopose geo s = None.
Proof.
  intros Hgps. unfold pose_to_geopose.
  destruct geo as [[]|]; [by rewrite Hgps|done].
Qed.

(** Before the first GPS fix no detection can be converted, so the two
    detection callbacks leave the node as it is, whatever they are sent. *)
Theorem detections_before_first_fix_dropped markers objects s :
  filtered_gps s = None →
  aruco_callback markers s = s ∧ obj_callback objects s = s.
Proof.
  intros Hgps. split.
  - unfold aruco_callback. case_bool_decide; [|done].
    induction markers as [|mk markers IH]; [done|]. cbn [foldl].
    destruct (tags !! leg s); [|done]. case_bool_decide; [|done].
    by rewrite pose_to_geopose_no_fix.
  - unfold obj_callback. case_bool_decide; [|done].
    induction objects as [|obj objects IH]; [done|]. cbn [foldl].
    destruct (str_in _ _); [|done]. by rewrite pose_to_geopose_no_fix.
Qed.

Lemma detections_before_first_fix_dropped_witness :
  let s := set_leg "aruco1" Scenario.no_fix in
  let markers := [mkMarker 1 (Some (40.00202, -111.002)%float)] in
  filtered_gps s = None
  ∧ aruco_callback markers s = s ∧ obj_callback [ScenarioObject.mall] s = s.
Proof.
  split; [reflexivity|].
  apply (detections_before_first_fix_dropped
           [mkMarker 1 (Some (40.00202, -111.002)%float)]
           [ScenarioObject.mall] (set_leg "aruco1" Scenario.no_fix)).
  reflexivity.
Defined.

Lemma deliver_fix cbs s :
  is_Some (filtered_gps s) → is_Some (filtered_gps (deliver cbs s)).
Proof.
  unfold deliver. revert s. induction cbs as [|cb cbs IH]; intros s Hs; [done|].
  cbn [foldl]. apply IH. destruct cb; cbn [run_callback]; [by eexists| | |done].
  - by rewrite (aruco_callback_frame filtered_gps).
  - by rewrite (obj_callback_frame filtered_gps).
Qed.

Lemma deliver_no_cancel cbs s :
  CancelRequest ∉ cbs →
  is_cancel_requested (deliver cbs s) = is_cancel_requested s.
Proof.
  unfold deliver. revert s. induction cbs as [|cb cbs IH]; intros s Hno; [done|].
  cbn [foldl]. rewrite IH by (intros ?; apply Hno; by right).
  destruct cb; cbn [run_callback]; [done| | |].
  - by rewrite (aruco_callback_frame is_cancel_requested).
  - by rewrite (obj_callback_frame is_cancel_requested).
  - exfalso. apply Hno. by left.
Qed.

(** What the callbacks do to the two conditions the mission waits on: a cancel
    request is never taken back and is raised by the cancel callback only, and
    a GPS fix, once there, stays. *)
Theorem callbacks_keep_cancel_request_and_fix cbs s :
  (is_cancel_requested s = true → is_cancel_requested (deliver cbs s) = true)
  ∧ (CancelRequest ∉ cbs →
     is_cancel_requested (deliver cbs s) = is_cancel_requested s)
  ∧ (CancelRequest ∈ cbs → is_cancel_requested (deliver cbs s) = true)
  ∧ (is_Some (filtered_gps s) → is_Some (filtered_gps (deliver cbs s))).
Proof.
  split; [apply deliver_cancel_requested|].
  split; [apply deliver_no_cancel|]. split; [|apply deliver_fix].
  revert s. induction cbs as [|cb cbs IH]; intros s; [by intros ?%elem_of_nil|].
  intros [<-|Hin]%elem_of_cons.
  - by apply (deliver_cancel_requested cbs).
  - by apply (IH (run_callback cb s)).
Qed.

(** The loop over the legs writes poses only for the legs it executes: the
    entry of a label that is neither the current leg nor one of the legs to
    come is the same after the loop, however the loop ends. *)
Theorem exec_legs_keeps_other_entries cfg fuel ls k s :
  leg s ≠ k → k ∉ ls →
  found_poses (exec_legs cfg fuel ls s).2 !! k = found_poses s !! k.
Proof.
  intros Hleg Hk.
  assert (respects (keeps_rel k) (exec_legs cfg fuel ls)) as Hlegs.
  { apply (respects_exec_legs cfg); try done.
    intros l s0 Hl. apply keeps_rel_set_leg. by intros ->. }
  by destruct (Hlegs s Hleg) as [_ Hf].
Qed.

Lemma exec_legs_keeps_other_entries_witness :
  let s := set_script (Scenario.plain_leg ++ Scenario.plain_leg)
             (set_leg "start" (set_wps Scenario.table
                (set_found_poses no_found_poses Scenario.idle))) in
  let ls := ["gps1"; "gps2"]%string in
  let k := "aruco1"%string in
  (leg s ≠ k ∧ k ∉ ls)
  ∧ found_poses (exec_legs Scenario.planners 20 ls s).2 !! k
    = found_poses s !! k.
Proof.
  assert ("aruco1"%string ∉ ["gps1"; "gps2"]%string) as Hk.
  { intros Hin. apply elem_of_cons in Hin as [Heq|Hin]; [discriminate|].
    apply list_elem_of_singleton in Hin. discriminate. }
  split; [split; [discriminate|exact Hk]|].
  apply (exec_legs_keeps_other_entries Scenario.planners 20
           ["gps1"; "gps2"]%string "aruco1"); [discriminate|exact Hk].
Defined.

